(** * useCase.ts: Result, ResultPromise, Context and UseCase

    A shallow embedding of [src/result.ts], [src/context.ts] and
    [src/use-case.ts] together with the properties of the chaining
    protocol stated in the specification.

    Conventions of the embedding.
    - JavaScript values are primitives or references into a heap of
      objects; [=] on [value] is JavaScript's [===] (numbers are restricted
      to integers, so NaN and the signed zero do not occur).
    - Objects are ordinary objects: they inherit from [Object.prototype]
      and carry string-keyed data properties with their attributes;
      accessor properties, symbol keys and proxies are outside the model.
    - An [async] function is modelled by its body, run to settlement:
      outcome [Normal r] means that the returned promise fulfils with [r],
      [Thrown e] that it rejects with [e] (for a synchronous function: that
      it returns [r], respectively throws [e]).  [await] of a call runs the
      callee to settlement; interleaving with other tasks is not modelled.
    - Calls into caller-supplied code (callbacks, [execute]) are recorded in
      a call log, which that code cannot itself touch. *)

From stdpp Require Import base option list strings gmap fin_maps pretty.

(** ** Values and objects *)

Definition loc := positive.

Inductive value :=
  | VUndefined
  | VNull
  | VBool (b : bool)
  | VNumber (n : Z)
  | VString (s : string)
  | VObject (l : loc).

#[global] Instance value_eq_dec : EqDecision value.
Proof. solve_decision. Defined.

(** A data property with its attributes. *)
Record property := Property {
  p_value : value;
  p_writable : bool;
  p_enumerable : bool;
  p_configurable : bool
}.

#[global] Instance property_eq_dec : EqDecision property.
Proof. solve_decision. Defined.

(** A property created by assignment or by an object literal. *)
Definition data_property (v : value) : property := Property v true true true.

(** What an object inherits from.  [ClassContext sub] is [Context] or a
    subclass of it whose prototypes define the member names [sub]:
    accessors, as in the tests, which give values of the model.
    [ClassTypeError] and [ClassRangeError] are the native errors that the
    language itself throws. *)
Inductive class :=
  | ClassObject
  | ClassError
  | ClassTypeError
  | ClassRangeError
  | ClassResult
  | ClassContext (sub : list string).

#[global] Instance class_eq_dec : EqDecision class.
Proof. solve_decision. Defined.

Record object := Object {
  o_class : class;
  o_props : gmap string property
}.

(** Member names of [Object.prototype]. *)
Definition Object_prototype : list string :=
  ["constructor"; "__defineGetter__"; "__defineSetter__"; "hasOwnProperty";
   "__lookupGetter__"; "__lookupSetter__"; "isPrototypeOf";
   "propertyIsEnumerable"; "toString"; "valueOf"; "__proto__";
   "toLocaleString"].

(** Names found on the prototype chain of an instance. *)
Definition inherited (c : class) : list string :=
  match c with
  | ClassObject => Object_prototype
  | ClassError => ["constructor"; "name"; "message"; "toString"] ++ Object_prototype
  | ClassTypeError | ClassRangeError =>
      ["constructor"; "name"; "message"] ++
      ["constructor"; "name"; "message"; "toString"] ++ Object_prototype
  | ClassResult =>
      ["constructor"; "getValue"; "isSuccess"; "isFailure"; "getType";
       "getError"; "and_then"; "execUseCase"; "mergeContext"; "onSuccess";
       "onFailure"] ++ Object_prototype
  | ClassContext sub =>
      sub ++ ["constructor"; "getInput"; "getOutput"] ++ Object_prototype
  end.

(** [key in o]: an own property or a member of the prototype chain. *)
Definition js_in (key : string) (o : object) : bool :=
  bool_decide (is_Some (o_props o !! key)) || bool_decide (key ∈ inherited (o_class o)).

Definition js_nullish (v : value) : bool :=
  match v with VUndefined | VNull => true | _ => false end.

Definition js_truthy (v : value) : bool :=
  match v with
  | VUndefined | VNull => false
  | VBool b => b
  | VNumber n => negb (n =? 0)%Z
  | VString s => negb (String.eqb s "")
  | VObject _ => true
  end.

(** The index properties of a string primitive: ["0"], ["1"], ... *)
Fixpoint string_entries (i : nat) (s : string) : list (string * value) :=
  match s with
  | EmptyString => []
  | String c s' => (pretty i, VString (String c EmptyString)) :: string_entries (S i) s'
  end.

(** The own enumerable string-keyed properties that a spread [{...v}]
    copies, with their values. *)
Definition own_enumerable (h : gmap loc object) (v : value) : gmap string value :=
  match v with
  | VObject l =>
      match h !! l with
      | Some o => p_value <$> filter (λ kp, p_enumerable kp.2 = true) (o_props o)
      | None => ∅
      end
  | VString s => list_to_map (string_entries 0 s)
  | _ => ∅
  end.

(** The classes whose prototype chain holds [Error.prototype]. *)
Definition is_error_class (c : class) : bool :=
  match c with
  | ClassError | ClassTypeError | ClassRangeError => true
  | _ => false
  end.

(** [v instanceof Error] *)
Definition instanceof_Error (h : gmap loc object) (v : value) : bool :=
  match v with
  | VObject l =>
      match h !! l with
      | Some o => is_error_class (o_class o)
      | None => false
      end
  | _ => false
  end.

(** The own property [key] of [v], if [v] is an object that has one. *)
Definition own_property (h : gmap loc object) (v : value) (key : string)
    : option property :=
  match v with
  | VObject l => h !! l ≫= (λ o, o_props o !! key)
  | _ => None
  end.

Definition class_of (h : gmap loc object) (v : value) : option class :=
  match v with
  | VObject l => o_class <$> h !! l
  | _ => None
  end.

(** Reading a data property: [v.key] for an object [v]. *)
Definition get_prop (h : gmap loc object) (v : value) (key : string) : value :=
  match v with
  | VObject l =>
      match h !! l ≫= (λ o, o_props o !! key) with
      | Some p => p_value p
      | None => VUndefined
      end
  | _ => VUndefined
  end.

(** A reference is valid when it points into the heap. *)
Definition valid (h : gmap loc object) (v : value) : Prop :=
  match v with
  | VObject l => is_Some (h !! l)
  | _ => True
  end.

#[global] Instance valid_dec h v : Decision (valid h v).
Proof. destruct v; simpl; apply _. Defined.

(** ** Computations *)

Inductive outcome (A : Type) :=
  | Normal (a : A)
  | Thrown (e : value).
Arguments Normal {A} a.
Arguments Thrown {A} e.

(** The heap and the log of calls into caller-supplied code, each call
    with its arguments. *)
Record world := World {
  w_heap : gmap loc object;
  w_calls : list (list value)
}.

Definition M (A : Type) : Type := world → outcome A * world.

(** Caller-supplied code acts on the heap, and returns or throws. *)
Definition ucode (A : Type) : Type := gmap loc object → outcome A * gmap loc object.

#[global] Instance M_ret : MRet M := λ A a w, (Normal a, w).
#[global] Instance M_bind : MBind M := λ A B k m w,
  match m w with
  | (Normal a, w') => k a w'
  | (Thrown e, w') => (Thrown e, w')
  end.

(** [try { body } catch (error) { handler error }] *)
Definition try_catch {A} (body : M A) (handler : value → M A) : M A := λ w,
  match body w with
  | (Normal a, w') => (Normal a, w')
  | (Thrown e, w') => handler e w'
  end.

(** [throw e] *)
Definition throw {A} (e : value) : M A := λ w, (Thrown e, w).

Definition get_heap : M (gmap loc object) := λ w, (Normal (w_heap w), w).

(** Allocation at an unused address. *)
Definition alloc (o : object) : M loc := λ w,
  let l := fresh (dom (w_heap w)) in
  (Normal l, World (<[l := o]> (w_heap w)) (w_calls w)).

(** Defining or overwriting an own property of an allocated object. *)
Definition define_prop (l : loc) (key : string) (p : property) : M unit := λ w,
  (Normal (), World (alter (λ o, Object (o_class o) (<[key := p]> (o_props o))) l (w_heap w))
                    (w_calls w)).

(** A call of caller-supplied code with the given arguments. *)
Definition call {A} (f : ucode A) (args : list value) : M A := λ w,
  let '(r, h') := f (w_heap w) in
  (r, World h' (w_calls w ++ [args])).

(** The object literal [{}] and object literals with data properties. *)
Definition new_object (props : gmap string value) : M value :=
  l ← alloc (Object ClassObject (data_property <$> props)); mret (VObject l).

(** [v ?? {}] *)
Definition or_empty_nullish (v : value) : M value :=
  if js_nullish v then new_object ∅ else mret v.

(** [v || {}] *)
Definition or_empty_falsy (v : value) : M value :=
  if js_truthy v then mret v else new_object ∅.

(** [new Error(message)]: the message is an own, non-enumerable property. *)
Definition new_Error (message : string) : M value :=
  l ← alloc (Object ClassError {[ "message" := Property (VString message) true false true ]});
  mret (VObject l).

(** An error that the language throws. *)
Definition new_native_error (c : class) (message : string) : M value :=
  l ← alloc (Object c {[ "message" := Property (VString message) true false true ]});
  mret (VObject l).

(** *** [String(v)] *)

(** [Number::toString] for the integers.  A number of the language is a
    double: an integer beyond [2^53] stands for the nearest double (ties
    to even).  The string has the fewest significant digits that still
    round to that double, in decimal notation below [10^21] and in
    exponent notation from there on. *)
Definition to_double (a : Z) : Z :=
  if (a <? 2 ^ 53)%Z then a
  else
    let e := (Z.log2 a - 52)%Z in
    let q := (a / 2 ^ e)%Z in
    let r := (a mod 2 ^ e)%Z in
    let half := (2 ^ (e - 1))%Z in
    let q' := if (half <? r)%Z || ((r =? half)%Z && Z.odd q) then (q + 1)%Z else q in
    (q' * 2 ^ e)%Z.

(** Whether the integer [v] rounds to the double [x], for [2^53 ≤ x]
    (everything times 4, to stay in the integers). *)
Definition rounds_to (x v : Z) : bool :=
  let e := (Z.log2 x - 52)%Z in
  let m := (x / 2 ^ e)%Z in
  let lo4 := (4 * x - (if (m =? 2 ^ 52)%Z then 2 ^ e else 2 ^ (e + 1)))%Z in
  let hi4 := (4 * x + 2 ^ (e + 1))%Z in
  if Z.even m then (lo4 <=? 4 * v)%Z && (4 * v <=? hi4)%Z
  else (lo4 <? 4 * v)%Z && (4 * v <? hi4)%Z.

Definition decimal_digits (x : Z) : Z := Z.of_nat (String.length (pretty x)).

(** The number with the fewest significant digits that rounds to [x], the
    closest to [x] if there are two; [k] digits are tried next. *)
Fixpoint shortest (fuel : nat) (x : Z) (k : Z) : Z :=
  match fuel with
  | O => x
  | S fuel' =>
      let scale := (10 ^ (decimal_digits x - k))%Z in
      let s := (x / scale)%Z in
      let v1 := (s * scale)%Z in
      let v2 := ((s + 1) * scale)%Z in
      match rounds_to x v1, rounds_to x v2 with
      | true, true =>
          if (x - v1 <? v2 - x)%Z then v1
          else if (v2 - x <? x - v1)%Z then v2
          else if Z.even s then v1 else v2
      | true, false => v1
      | false, true => v2
      | false, false => shortest fuel' x (k + 1)%Z
      end
  end.

Fixpoint strip_zeros (fuel : nat) (v : Z) : Z :=
  match fuel with
  | O => v
  | S fuel' =>
      if (v mod 10 =? 0)%Z && negb (v =? 0)%Z then strip_zeros fuel' (v / 10)%Z else v
  end.

Definition positive_toString (a : Z) : string :=
  let x := to_double a in
  if (2 ^ 1024 <=? x)%Z then "Infinity"
  else
    let v := if (x <? 2 ^ 53)%Z then x else shortest (String.length (pretty x)) x 1 in
    let n := decimal_digits v in
    if (n <=? 21)%Z then pretty v
    else
      match pretty (strip_zeros (String.length (pretty v)) v) with
      | String c EmptyString => String c ("e+" +:+ pretty (n - 1)%Z)
      | String c rest => String c ("." +:+ rest +:+ "e+" +:+ pretty (n - 1)%Z)
      | EmptyString => ""
      end.

Definition Number_toString (n : Z) : string :=
  if (n =? 0)%Z then "0"
  else if (n <? 0)%Z then "-" +:+ positive_toString (- n)
  else positive_toString n.

(** What [String(v)] does: it gives a string, or it throws a [TypeError]
    (the object has no conversion to a primitive) or a [RangeError] (the
    conversion does not end). *)
Inductive conversion :=
  | Converted (s : string)
  | ThrowsTypeError
  | ThrowsRangeError.

#[global] Instance conversion_eq_dec : EqDecision conversion.
Proof. solve_decision. Defined.

(** Whether [o.key] is something else than the method that [o] inherits
    from [Object.prototype] or [Error.prototype]: an own property, or an
    accessor of a subclass.  Its value is a value of the model, so it is
    not callable. *)
Definition shadowed (key : string) (o : object) : bool :=
  bool_decide (is_Some (o_props o !! key)) ||
  match o_class o with
  | ClassContext sub => bool_decide (key ∈ sub)
  | _ => false
  end.

(** The [name] that an error inherits. *)
Definition error_name (c : class) : string :=
  match c with
  | ClassTypeError => "TypeError"
  | ClassRangeError => "RangeError"
  | _ => "Error"
  end.

(** [ToString(v)].  A primitive converts directly.  An object converts
    through its [toString]: when that is not callable, [valueOf] is tried,
    which is not callable either or is the inherited one and returns the
    object, so that a [TypeError] is thrown.  The inherited [toString] of
    an error joins [name] and [message], converting each in turn ([fuel]
    bounds the nesting); that of any other object gives
    "[object Object]". *)
Fixpoint ToString (fuel : nat) (h : gmap loc object) (v : value) : conversion :=
  match v with
  | VUndefined => Converted "undefined"
  | VNull => Converted "null"
  | VBool b => Converted (if b then "true" else "false")
  | VNumber n => Converted (Number_toString n)
  | VString s => Converted s
  | VObject l =>
      match h !! l with
      | None => Converted "[object Object]"
      | Some o =>
          if shadowed "toString" o then ThrowsTypeError
          else if is_error_class (o_class o) then
            match fuel with
            | O => ThrowsRangeError
            | S fuel' =>
                let name := match o_props o !! "name" with
                            | Some p => p_value p
                            | None => VString (error_name (o_class o))
                            end in
                let msg := match o_props o !! "message" with
                           | Some p => p_value p
                           | None => VString ""
                           end in
                match (match name with
                       | VUndefined => Converted "Error"
                       | _ => ToString fuel' h name
                       end) with
                | Converted n =>
                    match (match msg with
                           | VUndefined => Converted ""
                           | _ => ToString fuel' h msg
                           end) with
                    | Converted m =>
                        Converted (if String.eqb n "" then m
                                   else if String.eqb m "" then n
                                   else n +:+ ": " +:+ m)
                    | c => c
                    end
                | c => c
                end
            end
          else Converted "[object Object]"
      end
  end.

(** [String(v)]: a nesting of errors deeper than the number of objects
    goes round in a circle, so the conversion does not end. *)
Definition js_String (h : gmap loc object) (v : value) : conversion :=
  ToString (S (size h)) h v.

(** [forEach] over an array. *)
Fixpoint forEach {A} (l : list A) (f : A → M unit) : M unit :=
  match l with
  | [] => mret ()
  | x :: l' => f x;; forEach l' f
  end.

(** ** src/result.ts *)

(** A [Result] instance: its address [rid] and its fields, which are
    [readonly] and assigned once by the constructor. *)
Record Result := mkResult {
  rid : loc;
  resultType : string;
  data : value;
  error : value;
  context : value;
  useCaseClass : string;
  _isSuccess : bool
}.

#[global] Instance Result_eq_dec : EqDecision Result.
Proof. solve_decision. Defined.

(** [new Result({ resultType, isSuccess, error, data, context, useCaseClass })];
    an omitted optional member is [VUndefined], respectively [None]. *)
Definition new_Result (resultType : string) (isSuccess : bool)
    (error data context : value) (useCaseClass : option string) : M Result :=
  this ← alloc (Object ClassResult ∅);
  define_prop this "resultType" (data_property (VString resultType));;
  define_prop this "_isSuccess" (data_property (VBool isSuccess));;
  data' ← or_empty_nullish data;
  define_prop this "data" (data_property data');;
  error' ← or_empty_nullish error;
  define_prop this "error" (data_property error');;
  let useCaseClass' := default "" useCaseClass in
  define_prop this "useCaseClass" (data_property (VString useCaseClass'));;
  context' ← or_empty_nullish context;
  define_prop this "context" (data_property context');;
  mret (mkResult this resultType data' error' context' useCaseClass' isSuccess).

Definition getValue (this : Result) : value := data this.
Definition isSuccess (this : Result) : bool := _isSuccess this.
Definition isFailure (this : Result) : bool := negb (_isSuccess this).
Definition getType (this : Result) : string := resultType this.
Definition getError (this : Result) : value := error this.

Definition Success (value context : value) (useCaseClass : option string) : M Result :=
  new_Result "SUCCESS" true VUndefined value context useCaseClass.

Definition Failure (error : value) (failureType : option string)
    (context : value) (useCaseClass : option string) : M Result :=
  new_Result (default "FAILURE" failureType) false error VUndefined context useCaseClass.

(** [error instanceof Error ? error : new Error(String(error))]; when
    [String(error)] throws, so does the expression. *)
Definition normalize_error (error : value) : M value :=
  h ← get_heap;
  if instanceof_Error h error then mret error
  else
    match js_String h error with
    | Converted s => new_Error s
    | ThrowsTypeError =>
        e ← new_native_error ClassTypeError "Cannot convert object to primitive value";
        throw e
    | ThrowsRangeError =>
        e ← new_native_error ClassRangeError "Maximum call stack size exceeded";
        throw e
    end.

(** [{ ...a, ...b }] *)
Definition spread2 (a b : value) : M value :=
  h ← get_heap;
  new_object (own_enumerable h b ∪ own_enumerable h a).

(** [{ ...a, [key]: v }] *)
Definition spread_with (a : value) (key : string) (v : value) : M value :=
  h ← get_heap;
  new_object (<[key := v]> (own_enumerable h a)).

Definition mergeContext (result mergeable : Result) : M Result :=
  ctx ← spread2 (context mergeable) (context result);
  new_Result (resultType result) (_isSuccess result) (error result) (data result)
             ctx (Some (useCaseClass result)).

Definition and_then (this : Result) (fn : value → Result → ucode Result) : M Result :=
  if isFailure this then
    Failure (error this) (Some (resultType this)) (context this) (Some (useCaseClass this))
  else
    try_catch
      (result ← call (fn (getValue this) this) [getValue this; VObject (rid this)];
       mergeContext result this)
      (λ error,
         e ← normalize_error error;
         ctx ← spread_with (context this) "rawError" error;
         Failure e (Some "UNEXPECTED_ERROR") ctx (Some (useCaseClass this))).

Definition execUseCase (this : Result) (fn : value → Result → ucode Result) : M Result :=
  and_then this fn.

Definition onSuccess (this : Result) (f : value → Result → ucode unit) : M Result :=
  (if _isSuccess this
   then call (f (getValue this) this) [getValue this; VObject (rid this)]
   else mret ());;
  mret this.

Definition onFailure (this : Result) (f : value → Result → ucode unit)
    (failureType : option string) : M Result :=
  (if isFailure this && String.eqb (resultType this) (default "FAILURE" failureType)
   then call (f (getError this) this) [getError this; VObject (rid this)]
   else mret ());;
  mret this.

(** *** ResultPromise *)

(** A promise, represented by the outcome it settles with. *)
Definition Promise (A : Type) : Type := outcome A.

(** [p.then(onfulfilled)]: the promise of the callback's outcome; a
    rejection of [p] passes through. *)
Definition Promise_then {A B} (p : Promise A) (onfulfilled : A → M B) : M (Promise B) := λ w,
  match p with
  | Normal a => let '(o, w') := onfulfilled a w in (Normal o, w')
  | Thrown e => (Normal (Thrown e), w)
  end.

(** [await p] *)
Definition await {A} (p : Promise A) : M A := λ w, (p, w).

(** The promise returned by a call of an [async] function. *)
Definition async {A} (body : M A) : M (Promise A) := λ w,
  let '(o, w') := body w in (Normal o, w').

Record ResultPromise := mkResultPromise { promise : Promise Result }.

Module ResultPromise.

Definition and_then (this : ResultPromise) (fn : value → Result → ucode Result)
    : M ResultPromise :=
  newPromise ← Promise_then (promise this) (λ result, and_then result fn);
  mret (mkResultPromise newPromise).

Definition onSuccess (this : ResultPromise) (f : value → Result → ucode unit)
    : M ResultPromise :=
  Promise_then (promise this) (λ result, onSuccess result f;; mret ());;
  mret this.

Definition onFailure (this : ResultPromise) (f : value → Result → ucode unit)
    (failureType : option string) : M ResultPromise :=
  Promise_then (promise this)
    (λ result, onFailure result f (Some (default "FAILURE" failureType));; mret ());;
  mret this.

Definition toResult (this : ResultPromise) : M Result := await (promise this).

End ResultPromise.

(** ** src/context.ts *)

(** [key in this] for an allocated [this]. *)
Definition in_this (this : loc) (key : string) : M bool :=
  h ← get_heap;
  mret (match h !! this with Some o => js_in key o | None => false end).

(** [new Context(input, data)] for [Context] ([sub = []]) or a subclass
    whose prototypes add the member names [sub]. *)
Definition new_Context (sub : list string) (input data : value) : M value :=
  this ← alloc (Object (ClassContext sub) ∅);
  _inputParams ← or_empty_nullish input;
  define_prop this "_inputParams" (data_property _inputParams);;
  _outputParams ← or_empty_nullish data;
  define_prop this "_outputParams" (data_property _outputParams);;
  a ← or_empty_falsy input;
  b ← or_empty_falsy data;
  properties ← spread2 a b;
  h ← get_heap;
  forEach (map_to_list (own_enumerable h properties)) (λ '(key, value),
    present ← in_this this key;
    if negb present
    then define_prop this key (Property value false true true)
    else mret ());;
  mret (VObject this).

Definition getInput (h : gmap loc object) (this : value) : value :=
  get_prop h this "_inputParams".

Definition getOutput (h : gmap loc object) (this : value) : value :=
  get_prop h this "_outputParams".

(** ** src/use-case.ts *)

(** A concrete use case: the name of its class ([this.constructor.name])
    and its [execute] method. *)
Record UseCase := mkUseCase {
  name : string;
  execute : value → ucode Result
}.

Module UseCase.

Definition call (this : UseCase) (params : value) : M Result :=
  try_catch
    (result ← call (execute this params) [params];
     if isFailure result then
       Failure (getError result) (Some (getType result)) (context result) (Some (name this))
     else
       c ← new_Context [] params (getValue result);
       ctx ← new_object {[ name this := c ]};
       Success (getValue result) ctx (Some (name this)))
    (λ error,
       e ← normalize_error error;
       ctx ← new_object {[ "rawError" := error ]};
       Failure e (Some "UNEXPECTED_ERROR") ctx (Some (name this))).

End UseCase.

(** The variant of [src/use-case.ts] with a concrete base class: [call]
    wraps the promise of [_executeWithErrorHandling], whose body is that of
    [UseCase.call]. *)
Module BaseUseCase.

Definition _executeWithErrorHandling (this : UseCase) (params : value) : M Result :=
  UseCase.call this params.

Definition call (this : UseCase) (params : value) : M ResultPromise :=
  p ← async (_executeWithErrorHandling this params);
  mret (mkResultPromise p).

End BaseUseCase.

(** ** Specification vocabulary *)

(** The outcome and the final world of a computation satisfy [Q]. *)
Definition wp {A} (m : M A) (w : world) (Q : outcome A → world → Prop) : Prop :=
  Q (m w).1 (m w).2.

(** [v'] is the value of [v ?? {}]: [v] itself, or the empty-object
    sentinel, an object with no property that is new in [h']. *)
Definition sentinel (h h' : gmap loc object) (v' : value) : Prop :=
  ∃ l, v' = VObject l ∧ h !! l = None ∧ h' !! l = Some (Object ClassObject ∅).

Definition or_sentinel (h h' : gmap loc object) (v v' : value) : Prop :=
  if js_nullish v then sentinel h h' v' else v' = v.

(** [e'] is the value of [e instanceof Error ? e : new Error(String(e))]
    in heap [h]: [e] itself, or an [Error] that is new in [h'] and whose
    message is the string conversion of [e]. *)
Definition normalized_error (h h' : gmap loc object) (e e' : value) : Prop :=
  if instanceof_Error h e then e' = e
  else ∃ l s, js_String h e = Converted s ∧ e' = VObject l ∧ h !! l = None ∧
              h' !! l = Some (Object ClassError
                                {[ "message" := Property (VString s) true false true ]}).

(** [e instanceof Error ? e : new Error(String(e))] can be evaluated: [e]
    is an [Error], or [String(e)] gives a string. *)
Definition convertible (h : gmap loc object) (e : value) : Prop :=
  instanceof_Error h e = true ∨ ∃ s, js_String h e = Converted s.

#[global] Instance convertible_dec h e : Decision (convertible h e).
Proof.
  unfold convertible.
  destruct (instanceof_Error h e); [left; by left |].
  destruct (js_String h e) as [s| |] eqn:Hs.
  - left. right. by exists s.
  - right. intros [? | [s ?]]; congruence.
  - right. intros [? | [s ?]]; congruence.
Defined.

(** The outcome of an observation hook on [r] whose callback, if called,
    had outcome [fo]: the hook returns [r], or the callback's exception
    propagates. *)
Definition hook_outcome (r : Result) (fo : outcome unit) : outcome Result :=
  match fo with
  | Normal _ => Normal r
  | Thrown e => Thrown e
  end.

(** One step of the copying loop of the [Context] constructor, on the own
    properties [P] of an instance of class [cls]. *)
Definition copy_step (cls : class) (P : gmap string property) (kv : string * value)
    : gmap string property :=
  if js_in kv.1 (Object cls P) then P
  else <[kv.1 := Property kv.2 false true true]> P.

(** [c] is the instance that [new Context(input, data)] builds in heap [h],
    giving heap [h']: a new object whose [_inputParams] and [_outputParams]
    are [input ?? {}] and [data ?? {}], and whose other own properties are
    the enumerable own properties of [input] overlaid with those of [data]
    (the union prefers its left operand), each non-writable, enumerable and
    configurable, except for the names that the instance inherits. *)
Definition Context_of (h h' : gmap loc object) (sub : list string)
    (input data c : value) : Prop :=
  ¬ valid h c ∧
  class_of h' c = Some (ClassContext sub) ∧
  or_sentinel h h' input (getInput h' c) ∧
  or_sentinel h h' data (getOutput h' c) ∧
  ∀ key,
    own_property h' c key =
      if decide (key = "_inputParams") then Some (data_property (getInput h' c))
      else if decide (key = "_outputParams") then Some (data_property (getOutput h' c))
      else if decide (key ∈ inherited (ClassContext sub)) then None
      else (λ v, Property v false true true)
             <$> (own_enumerable h data ∪ own_enumerable h input) !! key.

(** The invariant that the constructor establishes. *)
Definition Result_wf (r : Result) : Prop :=
  js_nullish (data r) = false ∧ js_nullish (error r) = false ∧
  js_nullish (context r) = false.

#[global] Instance Result_wf_dec r : Decision (Result_wf r).
Proof. unfold Result_wf. apply _. Defined.

(** The heap object of a [Result] instance. *)
Definition Result_object (r : Result) : object :=
  Object ClassResult
    (<["context" := data_property (context r)]>
     (<["useCaseClass" := data_property (VString (useCaseClass r))]>
      (<["error" := data_property (error r)]>
       (<["data" := data_property (data r)]>
        (<["_isSuccess" := data_property (VBool (_isSuccess r))]>
         (<["resultType" := data_property (VString (resultType r))]> ∅)))))).

(** Caller code written with the operations of the library. *)
Definition user {A} (m : M A) : ucode A := λ h,
  let '(o, w) := m (World h []) in (o, w_heap w).

(** ** The rest of src/result.ts and src/use-case.ts *)

(** A chain of awaited calls,
    [(await (await r.and_then(f1)).and_then(f2)) ...], as callers write
    it. *)
Fixpoint and_then_chain (r : Result) (fns : list (value → Result → ucode Result))
    : M Result :=
  match fns with
  | [] => mret r
  | fn :: fns' => r' ← and_then r fn; and_then_chain r' fns'
  end.

(** The fluent chain [rp.and_then(f1).and_then(f2) ...] on a wrapper. *)
Fixpoint ResultPromise_chain (rp : ResultPromise)
    (fns : list (value → Result → ucode Result)) : M ResultPromise :=
  match fns with
  | [] => mret rp
  | fn :: fns' => rp' ← ResultPromise.and_then rp fn; ResultPromise_chain rp' fns'
  end.

(** [BaseUseCase#execute], the default that a subclass is to override:
    [throw new Error("Method not implemented. ...")]. *)
Definition BaseUseCase_execute (input : value) : ucode Result :=
  user (e ← new_Error "Method not implemented. Override this method in a subclass.";
        throw e).

(** [BaseUseCase#callChain] of the second variant, whose [call] has the
    body of [UseCase.call]: [new ResultPromise(this.call(params))]. *)
Definition BaseUseCase_callChain (this : UseCase) (params : value) : M ResultPromise :=
  p ← async (UseCase.call this params);
  mret (mkResultPromise p).


(** The static [UseCase.call] of the variant with a concrete base class,
    not an [async] method: it returns a wrapper, of a rejected promise for
    the abstract class, and an exception of the constructor is thrown to
    the caller. *)
Definition BaseUseCase_static_call (cls : option (ucode UseCase)) (params : value)
    : M ResultPromise :=
  match cls with
  | None =>
      e ← new_Error "Cannot call static method on abstract UseCase class";
      mret (mkResultPromise (Thrown e))
  | Some constructor =>
      instance ← call constructor [];
      BaseUseCase.call instance params
  end.

(** Caller code threw a value that is not an [Error] and that [String]
    does not convert. *)
Definition throws_unconvertible {A} (x : outcome A * gmap loc object) : Prop :=
  match x.1 with
  | Thrown e => ¬ convertible x.2 e
  | Normal _ => False
  end.

#[global] Instance throws_unconvertible_dec {A} (x : outcome A * gmap loc object) :
  Decision (throws_unconvertible x).
Proof. unfold throws_unconvertible. destruct x.1; apply _. Defined.

(** [v] is an [Error] whose message is [message]. *)
Definition Error_with_message (h : gmap loc object) (v : value) (message : string) : Prop :=
  instanceof_Error h v = true ∧ get_prop h v "message" = VString message.

(** ** Example inputs *)

(** A heap with an [Error] "not found" at address 1, a sentinel at 2, a
    context [{ x: 1 }] at 3, a context [{ x: 2, y: 3 }] at 4 and, at 5,
    the input [{ id: "123", name: "Test" }] of the tests. *)
Definition ex_heap : gmap loc object :=
  {[ 1%positive := Object ClassError
                     {[ "message" := Property (VString "not found") true false true ]};
     2%positive := Object ClassObject ∅;
     3%positive := Object ClassObject {[ "x" := data_property (VNumber 1) ]};
     4%positive := Object ClassObject {[ "x" := data_property (VNumber 2);
                                         "y" := data_property (VNumber 3) ]};
     5%positive := Object ClassObject {[ "id" := data_property (VString "123");
                                         "name" := data_property (VString "Test") ]} ]}.

Definition ex_world : world := World ex_heap [].

(** A failure that carries a data payload:
    [new Result({ resultType: "NOT_FOUND", isSuccess: false, error, data: 7,
    context: { x: 1 }, useCaseClass: "Lookup" })]. *)
Definition ex_failure : Result :=
  mkResult 10%positive "NOT_FOUND" (VNumber 7) (VObject 1%positive) (VObject 3%positive) "Lookup" false.

(** [Success("a", { x: 1 })] *)
Definition ex_success : Result :=
  mkResult 11%positive "SUCCESS" (VString "a") (VObject 2%positive) (VObject 3%positive) "" true.

(** [Success("b", { x: 2, y: 3 })] *)
Definition ex_next : Result :=
  mkResult 12%positive "SUCCESS" (VString "b") (VObject 2%positive) (VObject 4%positive) "" true.

(** Callbacks: one that returns [ex_next], one that throws the string
    ["boom"], and an observer that returns. *)
Definition ex_fn_next : value → Result → ucode Result := λ _ _ h, (Normal ex_next, h).
Definition ex_fn_boom : value → Result → ucode Result := λ _ _ h, (Thrown (VString "boom"), h).
Definition ex_observer : value → Result → ucode unit := λ _ _ h, (Normal (), h).

(** The use cases of the tests: [SuccessUseCase], whose [execute] returns
    [Success(input ? input.length : 0)], and [ThrowingNonErrorUseCase],
    whose [execute] throws the string "string error". *)
Definition SuccessUseCase : UseCase :=
  mkUseCase "SuccessUseCase" (λ input,
    user (Success (VNumber (match input with
                            | VString s => Z.of_nat (String.length s)
                            | _ => 0
                            end)) VUndefined None)).





(** ** Stepping through computations *)

Lemma wp_ret {A} (a : A) w Q : Q (Normal a) w → wp (mret a) w Q.
Proof. done. Qed.

Lemma wp_bind {A B} (m : M A) (k : A → M B) w Q :
  wp m w (λ o w', match o with
                  | Normal a => wp (k a) w' Q
                  | Thrown e => Q (Thrown e) w'
                  end) →
  wp (m ≫= k) w Q.
Proof.
  unfold wp, mbind, M_bind. destruct (m w) as [[a|e] w']; simpl; done.
Qed.

(** From a stepped computation back to an equation on its result. *)
Lemma wp_returns {A} (m : M A) w (P : A → world → Prop) :
  wp m w (λ o w', ∃ a, o = Normal a ∧ P a w') →
  ∃ a w', m w = (Normal a, w') ∧ P a w'.
Proof.
  unfold wp. destruct (m w) as [o w']. simpl. intros (a & -> & H). eauto.
Qed.

Lemma wp_get_heap w Q : Q (Normal (w_heap w)) w → wp get_heap w Q.
Proof. done. Qed.

Lemma wp_alloc o w Q :
  (∀ l, w_heap w !! l = None →
        Q (Normal l) (World (<[l := o]> (w_heap w)) (w_calls w))) →
  wp (alloc o) w Q.
Proof.
  intros H. apply H. apply not_elem_of_dom, is_fresh.
Qed.

Lemma wp_new_object props w Q :
  (∀ l, w_heap w !! l = None →
        Q (Normal (VObject l))
          (World (<[l := Object ClassObject (data_property <$> props)]> (w_heap w))
                 (w_calls w))) →
  wp (new_object props) w Q.
Proof.
  intros H. unfold new_object. apply wp_bind, wp_alloc. intros l Hl.
  by apply wp_ret, H.
Qed.

(** *** An object under construction

    While a constructor runs, the heap is [<[this := o]> hb]: the instance
    being built on top of a base heap that does not contain it. *)

Lemma wp_define_prop_at this o hb cs key p (Q : outcome unit → world → Prop) :
  Q (Normal ()) (World (<[this := Object (o_class o) (<[key := p]> (o_props o))]> hb) cs) →
  wp (define_prop this key p) (World (<[this := o]> hb) cs) Q.
Proof.
  intros H. unfold wp, define_prop. simpl. by rewrite alter_insert_eq.
Qed.

Lemma wp_new_object_at this o hb cs props (Q : outcome value → world → Prop) :
  hb !! this = None →
  (∀ l, l ≠ this → hb !! l = None →
        Q (Normal (VObject l))
          (World (<[this := o]> (<[l := Object ClassObject (data_property <$> props)]> hb)) cs)) →
  wp (new_object props) (World (<[this := o]> hb) cs) Q.
Proof.
  intros Hthis H. apply wp_new_object. simpl. intros l Hl.
  apply lookup_insert_None in Hl as [Hl Hne].
  rewrite insert_insert_ne by done. by apply H.
Qed.

Lemma wp_or_empty_nullish_at this o hb cs v (Q : outcome value → world → Prop) :
  hb !! this = None →
  (∀ v' hb', hb ⊆ hb' → hb' !! this = None → or_sentinel hb hb' v v' →
             Q (Normal v') (World (<[this := o]> hb') cs)) →
  wp (or_empty_nullish v) (World (<[this := o]> hb) cs) Q.
Proof.
  intros Hthis H. unfold or_empty_nullish, or_sentinel in *.
  destruct (js_nullish v) eqn:Hv.
  - apply wp_new_object_at; [done |]. intros l Hne Hl. rewrite fmap_empty. apply H.
    + by apply insert_subseteq.
    + by rewrite lookup_insert_ne.
    + exists l. by rewrite lookup_insert_eq.
  - by apply wp_ret, H.
Qed.

Lemma sentinel_weaken h0 h h' h'' v :
  h0 ⊆ h → h' ⊆ h'' → sentinel h h' v → sentinel h0 h'' v.
Proof.
  intros H0 H' (l & -> & Hl & Hl'). exists l. split; [done |]. split.
  - by eapply lookup_weaken_None.
  - by eapply lookup_weaken.
Qed.

Lemma or_sentinel_weaken h0 h h' h'' v v' :
  h0 ⊆ h → h' ⊆ h'' → or_sentinel h h' v v' → or_sentinel h0 h'' v v'.
Proof.
  unfold or_sentinel. destruct (js_nullish v); [apply sentinel_weaken | done].
Qed.

Lemma or_sentinel_nullish h h' v v' : or_sentinel h h' v v' → js_nullish v' = false.
Proof.
  unfold or_sentinel. destruct (js_nullish v) eqn:Hv.
  - by intros (l & -> & _).
  - by intros ->.
Qed.

(** ** The constructor and the factories *)

Lemma wp_new_Result rt ok e d c u w (Q : outcome Result → world → Prop) :
  (∀ r h',
     w_heap w ⊆ h' →
     w_heap w !! rid r = None →
     h' !! rid r = Some (Result_object r) →
     resultType r = rt → _isSuccess r = ok → useCaseClass r = default "" u →
     or_sentinel (w_heap w) h' d (data r) →
     or_sentinel (w_heap w) h' e (error r) →
     or_sentinel (w_heap w) h' c (context r) →
     Q (Normal r) (World h' (w_calls w))) →
  wp (new_Result rt ok e d c u) w Q.
Proof.
  intros H. unfold new_Result.
  apply wp_bind, wp_alloc. intros this Hthis.
  do 2 apply wp_bind, wp_define_prop_at.
  apply wp_bind, wp_or_empty_nullish_at; [done |]. intros d' h1 Hsub1 Hthis1 Hd.
  apply wp_bind, wp_define_prop_at.
  apply wp_bind, wp_or_empty_nullish_at; [done |]. intros e' h2 Hsub2 Hthis2 He.
  do 2 apply wp_bind, wp_define_prop_at.
  apply wp_bind, wp_or_empty_nullish_at; [done |]. intros c' h3 Hsub3 Hthis3 Hc.
  apply wp_bind, wp_define_prop_at. apply wp_ret. simpl.
  assert (h3 ⊆ <[this := Result_object (mkResult this rt d' e' c' (default "" u) ok)]> h3)
    as Hsub4 by by apply insert_subseteq.
  apply H; simpl; try done.
  - by repeat (etrans; [eassumption |]).
  - by rewrite lookup_insert_eq.
  - eapply or_sentinel_weaken; [reflexivity | | exact Hd]. by repeat (etrans; [eassumption |]).
  - eapply or_sentinel_weaken; [exact Hsub1 | | exact He]. by repeat (etrans; [eassumption |]).
  - eapply or_sentinel_weaken; [| exact Hsub4 | exact Hc]. by etrans.
Qed.

Lemma wp_Success v c u w (Q : outcome Result → world → Prop) :
  (∀ r h',
     w_heap w ⊆ h' → w_heap w !! rid r = None → h' !! rid r = Some (Result_object r) →
     resultType r = "SUCCESS" → _isSuccess r = true → useCaseClass r = default "" u →
     or_sentinel (w_heap w) h' v (data r) →
     sentinel (w_heap w) h' (error r) →
     or_sentinel (w_heap w) h' c (context r) →
     Q (Normal r) (World h' (w_calls w))) →
  wp (Success v c u) w Q.
Proof. intros H. unfold Success. apply wp_new_Result. intros. by apply H. Qed.

Lemma wp_Failure e t c u w (Q : outcome Result → world → Prop) :
  (∀ r h',
     w_heap w ⊆ h' → w_heap w !! rid r = None → h' !! rid r = Some (Result_object r) →
     resultType r = default "FAILURE" t → _isSuccess r = false →
     useCaseClass r = default "" u →
     sentinel (w_heap w) h' (data r) →
     or_sentinel (w_heap w) h' e (error r) →
     or_sentinel (w_heap w) h' c (context r) →
     Q (Normal r) (World h' (w_calls w))) →
  wp (Failure e t c u) w Q.
Proof. intros H. unfold Failure. apply wp_new_Result. intros. by apply H. Qed.

(** Every instance that the constructor builds satisfies [Result_wf]. *)
Lemma new_Result_wf rt ok e d c u w :
  ∃ r w', new_Result rt ok e d c u w = (Normal r, w') ∧ Result_wf r.
Proof.
  apply wp_returns, wp_new_Result.
  intros r h' _ _ _ _ _ _ Hd He Hc. exists r. split; [done |].
  unfold Result_wf. repeat split; by eapply or_sentinel_nullish.
Qed.

(** ** Factories and accessors *)

Example js_String_examples :
  js_String ex_heap (VString "boom") = Converted "boom" ∧
  js_String ex_heap (VNumber (-42)) = Converted "-42" ∧
  js_String ex_heap VNull = Converted "null" ∧
  js_String ex_heap (VObject 3%positive) = Converted "[object Object]" ∧
  js_String ex_heap (VObject 1%positive) = Converted "Error: not found".
Proof. repeat split. Qed.

(** Numbers: decimal notation below [10^21], exponent notation from there
    on, and in both the fewest digits that identify the double. *)
Example Number_toString_examples :
  Number_toString 0 = "0" ∧
  Number_toString (2 ^ 53) = "9007199254740992" ∧
  Number_toString (2 ^ 60) = "1152921504606847000" ∧
  Number_toString (10 ^ 21 - 2 ^ 17) = "999999999999999900000" ∧
  Number_toString (10 ^ 21) = "1e+21" ∧
  Number_toString (- 15 * 10 ^ 20) = "-1.5e+21" ∧
  Number_toString (2 ^ 70) = "1.1805916207174113e+21" ∧
  Number_toString (2 ^ 1024) = "Infinity".
Proof. by vm_compute. Qed.

(** Objects without a conversion: an own [toString] that is not callable
    hides the inherited method, also on an error; an error that is its own
    message does not stop converting.  An error whose message is a number
    converts that number. *)
Example js_String_throws :
  js_String {[ 1%positive := Object ClassObject {[ "toString" := data_property (VNumber 1) ]} ]}
            (VObject 1%positive) = ThrowsTypeError ∧
  js_String {[ 1%positive := Object ClassError {[ "toString" := data_property VUndefined ]} ]}
            (VObject 1%positive) = ThrowsTypeError ∧
  js_String {[ 1%positive := Object ClassError
                               {[ "message" := data_property (VObject 1%positive) ]} ]}
            (VObject 1%positive) = ThrowsRangeError ∧
  js_String {[ 1%positive := Object ClassTypeError
                               {[ "message" := data_property (VNumber 7) ]} ]}
            (VObject 1%positive) = Converted "TypeError: 7" ∧
  js_String {[ 1%positive := Object ClassObject {[ "valueOf" := data_property (VNumber 1) ]} ]}
            (VObject 1%positive) = Converted "[object Object]".
Proof. by vm_compute. Qed.

(** C5, as the claim states it, fails for [v = null]: [Success(null)] holds
    the sentinel object, not [null]. *)
Lemma Success_null_getValue :
  ∃ r w', Success VNull VUndefined None (World ∅ []) = (Normal r, w') ∧
    isSuccess r = true ∧ getValue r = VObject 2%positive ∧ getValue r ≠ VNull.
Proof. eexists _, _. split; [vm_compute; reflexivity |]. by simpl. Qed.

(** C5 (amended): for every value [v], [Success(v)] is a success of type
    "SUCCESS" whose value is [v] when [v] is neither [null] nor
    [undefined] and the empty-object sentinel otherwise, and its
    [getError()] is the empty-object sentinel; for every error [e] (not
    [null] or [undefined]) and tag [t], [Failure(e, t)] is a failure of
    type [t] whose error is [e], and its [getValue()] is the empty-object
    sentinel. *)
Theorem Success_Failure_accessors (v e c : value) (t : string) (u : option string)
    (w : world) (He : js_nullish e = false) :
  (∃ r w', Success v c u w = (Normal r, w') ∧
     isSuccess r = true ∧
     getType r = "SUCCESS" ∧
     (if js_nullish v
      then sentinel (w_heap w) (w_heap w') (getValue r)
      else getValue r = v) ∧
     sentinel (w_heap w) (w_heap w') (getError r) ∧
     js_nullish (getError r) = false) ∧
  (∃ r w', Failure e (Some t) c u w = (Normal r, w') ∧
     isFailure r = true ∧
     getType r = t ∧
     getError r = e ∧
     sentinel (w_heap w) (w_heap w') (getValue r) ∧
     js_nullish (getValue r) = false).
Proof.
  split.
  - apply wp_returns, wp_Success.
    intros r h' _ _ _ Ht Hok _ Hd Herr _. exists r. split; [done |].
    unfold isSuccess, getValue, getType, getError. repeat split; try done.
    by destruct Herr as (l & -> & _).
  - apply wp_returns, wp_Failure.
    intros r h' _ _ _ Ht Hok _ Hd Herr _. exists r. split; [done |].
    unfold or_sentinel in Herr. rewrite He in Herr.
    unfold isFailure, getValue, getType, getError. rewrite Hok. repeat split; try done.
    by destruct Hd as (l & -> & _).
Qed.

(** [Success(4)] holds 4, and [Failure(error, "NOT_FOUND")] holds the
    error. *)
Lemma Success_Failure_accessors_witness :
  (∃ r w', Success (VNumber 4) VUndefined None ex_world = (Normal r, w') ∧
     isSuccess r = true ∧ getType r = "SUCCESS" ∧ getValue r = VNumber 4 ∧
     sentinel (w_heap ex_world) (w_heap w') (getError r) ∧
     js_nullish (getError r) = false) ∧
  (∃ r w', Failure (VObject 1%positive) (Some "NOT_FOUND") VUndefined None ex_world
             = (Normal r, w') ∧
     isFailure r = true ∧ getType r = "NOT_FOUND" ∧ getError r = VObject 1%positive ∧
     sentinel (w_heap ex_world) (w_heap w') (getValue r) ∧
     js_nullish (getValue r) = false).
Proof.
  apply (Success_Failure_accessors (VNumber 4) (VObject 1%positive) VUndefined "NOT_FOUND"
           None ex_world); reflexivity.
Defined.

(** ** Chaining: [and_then] *)

(** The short-circuit of [and_then] on a failure. *)
Lemma wp_and_then_failure r fn w (Q : outcome Result → world → Prop) :
  Result_wf r → isFailure r = true →
  (∀ r' h',
     w_heap w ⊆ h' → isFailure r' = true →
     getError r' = getError r → resultType r' = resultType r →
     context r' = context r → useCaseClass r' = useCaseClass r →
     Q (Normal r') (World h' (w_calls w))) →
  wp (and_then r fn) w Q.
Proof.
  intros (_ & He & Hc) Hfail H. unfold and_then. rewrite Hfail. apply wp_Failure.
  intros r' h' Hsub _ _ Ht Hok Hu _ Herr Hctx.
  unfold or_sentinel in Herr, Hctx. rewrite He in Herr. rewrite Hc in Hctx.
  apply H; try done. unfold isFailure. by rewrite Hok.
Qed.

(** C1: on a failure, [and_then] does not call its callback (the call log
    is unchanged, and the outcome is the same for every callback) and
    returns a failure with the error, type, context and label of the
    original. *)
Theorem and_then_failure_short_circuit (r : Result) (fn : value → Result → ucode Result)
    (w : world) (Hwf : Result_wf r) (Hfail : isFailure r = true) :
  ∃ r' w', and_then r fn w = (Normal r', w') ∧
    w_calls w' = w_calls w ∧
    (∀ g, and_then r g w = (Normal r', w')) ∧
    isFailure r' = true ∧
    getError r' = getError r ∧
    resultType r' = resultType r ∧
    context r' = context r ∧
    useCaseClass r' = useCaseClass r ∧
    w_heap w ⊆ w_heap w'.
Proof.
  destruct (wp_returns (and_then r fn) w (λ r' w',
      w_calls w' = w_calls w ∧ isFailure r' = true ∧ getError r' = getError r ∧
      resultType r' = resultType r ∧ context r' = context r ∧
      useCaseClass r' = useCaseClass r ∧ w_heap w ⊆ w_heap w'))
    as (r' & w' & Heq & Hcalls & H).
  { apply wp_and_then_failure; [done.. |]. intros r' h' Hsub ? ? ? ? ?. by exists r'. }
  exists r', w'. repeat (split; [done |]). split; [| done].
  intros g. rewrite <- Heq. unfold and_then. by rewrite Hfail.
Qed.

Lemma and_then_failure_short_circuit_witness :
  ∃ r' w', and_then ex_failure ex_fn_next ex_world = (Normal r', w') ∧
    w_calls w' = w_calls ex_world ∧
    (∀ g, and_then ex_failure g ex_world = (Normal r', w')) ∧
    isFailure r' = true ∧
    getError r' = getError ex_failure ∧
    resultType r' = resultType ex_failure ∧
    context r' = context ex_failure ∧
    useCaseClass r' = useCaseClass ex_failure ∧
    w_heap ex_world ⊆ w_heap w'.
Proof.
  apply (and_then_failure_short_circuit ex_failure ex_fn_next ex_world).
  - repeat split.
  - reflexivity.
Defined.



(** *** The callback is called *)

Lemma wp_call {A} (f : ucode A) args w (Q : outcome A → world → Prop) :
  Q (f (w_heap w)).1 (World (f (w_heap w)).2 (w_calls w ++ [args])) →
  wp (call f args) w Q.
Proof. unfold wp, call. by destruct (f (w_heap w)). Qed.

Lemma wp_try_catch {A} (body : M A) handler w (Q : outcome A → world → Prop) :
  wp body w (λ o w', match o with
                     | Normal a => Q (Normal a) w'
                     | Thrown e => wp (handler e) w' Q
                     end) →
  wp (try_catch body handler) w Q.
Proof. unfold wp, try_catch. by destruct (body w) as [[a|e] w']. Qed.

(** The properties that a spread reads from a fresh object literal. *)
Lemma own_enumerable_literal h l (m : gmap string value) :
  h !! l = Some (Object ClassObject (data_property <$> m)) →
  own_enumerable h (VObject l) = m.
Proof.
  intros Hl. unfold own_enumerable. rewrite Hl. simpl.
  rewrite map_filter_id.
  - rewrite <- map_fmap_compose. apply map_eq. intros k.
    rewrite lookup_fmap. by destruct (m !! k).
  - intros k p Hk. rewrite lookup_fmap in Hk.
    destruct (m !! k); by simplify_eq/=.
Qed.

(** Allocation does not change what a spread of a valid value reads. *)
Lemma own_enumerable_weaken h h' v :
  h ⊆ h' → valid h v → own_enumerable h' v = own_enumerable h v.
Proof.
  intros Hsub Hv. destruct v as [| | | | |l]; try done.
  destruct Hv as [o Ho]. unfold own_enumerable.
  by rewrite Ho, (lookup_weaken _ _ _ _ Ho Hsub).
Qed.

Lemma wp_spread2 a b w (Q : outcome value → world → Prop) :
  (∀ l, w_heap w !! l = None →
        Q (Normal (VObject l))
          (World (<[l := Object ClassObject
                           (data_property <$>
                              (own_enumerable (w_heap w) b ∪ own_enumerable (w_heap w) a))]>
                    (w_heap w))
                 (w_calls w))) →
  wp (spread2 a b) w Q.
Proof.
  intros H. unfold spread2. apply wp_bind, wp_get_heap. by apply wp_new_object.
Qed.

Lemma wp_spread_with a key v w (Q : outcome value → world → Prop) :
  (∀ l, w_heap w !! l = None →
        Q (Normal (VObject l))
          (World (<[l := Object ClassObject
                           (data_property <$> <[key := v]> (own_enumerable (w_heap w) a))]>
                    (w_heap w))
                 (w_calls w))) →
  wp (spread_with a key v) w Q.
Proof.
  intros H. unfold spread_with. apply wp_bind, wp_get_heap. by apply wp_new_object.
Qed.

Lemma wp_normalize_error e w (Q : outcome value → world → Prop) :
  convertible (w_heap w) e →
  (∀ e' h', w_heap w ⊆ h' → normalized_error (w_heap w) h' e e' →
            Q (Normal e') (World h' (w_calls w))) →
  wp (normalize_error e) w Q.
Proof.
  intros Hconv H. unfold normalize_error. apply wp_bind, wp_get_heap.
  destruct (instanceof_Error (w_heap w) e) eqn:He.
  - apply wp_ret. destruct w as [h cs]. apply H; [done |].
    unfold normalized_error. by rewrite He.
  - destruct Hconv as [Hconv | [s Hs]]; [congruence |]. rewrite Hs.
    unfold new_Error. apply wp_bind, wp_alloc. intros l Hl. apply wp_ret, H.
    + by apply insert_subseteq.
    + unfold normalized_error. rewrite He. exists l, s. by rewrite lookup_insert_eq.
Qed.

(** When [String(e)] throws, the expression throws a new native error. *)
Lemma wp_normalize_error_throws e w (Q : outcome value → world → Prop) :
  ¬ convertible (w_heap w) e →
  (∀ l o, w_heap w !! l = None → is_error_class (o_class o) = true →
          Q (Thrown (VObject l)) (World (<[l := o]> (w_heap w)) (w_calls w))) →
  wp (normalize_error e) w Q.
Proof.
  intros Hconv H. unfold normalize_error. apply wp_bind, wp_get_heap.
  destruct (instanceof_Error (w_heap w) e) eqn:He.
  { destruct Hconv. by left. }
  destruct (js_String (w_heap w) e) as [s| |] eqn:Hs.
  - destruct Hconv. right. by exists s.
  - unfold new_native_error. apply wp_bind, wp_bind, wp_alloc. intros l Hl.
    apply wp_ret. by apply H.
  - unfold new_native_error. apply wp_bind, wp_bind, wp_alloc. intros l Hl.
    apply wp_ret. by apply H.
Qed.

Lemma normalized_error_nullish h h' e e' :
  normalized_error h h' e e' → js_nullish e' = false.
Proof.
  unfold normalized_error. destruct (instanceof_Error h e) eqn:He.
  - intros ->. by destruct e.
  - by intros (l & s & _ & -> & _).
Qed.

(** The normalized error is an [Error] in both cases. *)
Lemma normalized_error_instanceof h h' e e' :
  h ⊆ h' → normalized_error h h' e e' → instanceof_Error h' e' = true.
Proof.
  intros Hsub. unfold normalized_error. destruct (instanceof_Error h e) eqn:He.
  - intros ->. destruct e as [| | | | |l]; try done. simpl in *.
    destruct (h !! l) as [o|] eqn:Ho; [| done].
    by rewrite (lookup_weaken _ _ _ _ Ho Hsub).
  - intros (l & s & _ & -> & _ & Hl). simpl. by rewrite Hl.
Qed.


(** C2: when the callback of a success returns a Result [next], [and_then]
    returns a Result whose context is a new object holding the properties
    of the original context overlaid with those of [next]'s context (the
    union prefers its left operand, so keys of [next] win), and whose type,
    success flag, value, error and label are those of [next]. *)
Theorem and_then_success_merges (s next : Result) (fn : value → Result → ucode Result)
    (w : world) (h1 : gmap loc object)
    (Hs : isSuccess s = true)
    (Hfn : fn (getValue s) s (w_heap w) = (Normal next, h1))
    (Hnext : Result_wf next) :
  ∃ r' w', and_then s fn w = (Normal r', w') ∧
    valid (w_heap w') (context r') ∧ ¬ valid h1 (context r') ∧
    own_enumerable (w_heap w') (context r')
      = own_enumerable h1 (context next) ∪ own_enumerable h1 (context s) ∧
    resultType r' = resultType next ∧
    isSuccess r' = isSuccess next ∧
    getValue r' = getValue next ∧
    getError r' = getError next ∧
    useCaseClass r' = useCaseClass next ∧
    w_calls w' = w_calls w ++ [[getValue s; VObject (rid s)]] ∧
    h1 ⊆ w_heap w'.
Proof.
  destruct Hnext as (Hd & He & _).
  apply wp_returns. unfold and_then, isFailure. unfold isSuccess in Hs. rewrite Hs. simpl.
  apply wp_try_catch, wp_bind, wp_call. rewrite Hfn. simpl.
  unfold mergeContext. apply wp_bind, wp_spread2. simpl. intros lc Hlc.
  apply wp_new_Result. simpl.
  intros r' h' Hsub _ _ Ht Hok Hu Hdata Herr Hctx. exists r'. split; [done |].
  unfold or_sentinel in Hdata, Herr, Hctx. rewrite Hd in Hdata. rewrite He in Herr.
  simpl in Hctx, Hu.
  assert (h' !! lc = Some (Object ClassObject (data_property <$>
            (own_enumerable h1 (context next) ∪ own_enumerable h1 (context s))))) as Hobj.
  { eapply lookup_weaken; [| exact Hsub]. by rewrite lookup_insert_eq. }
  rewrite Hctx.
  split; [simpl; rewrite Hobj; by eexists |].
  split; [simpl; rewrite Hlc; by intros [? ?] |].
  split; [by apply own_enumerable_literal |].
  unfold isSuccess, getValue, getError. repeat (split; [done |]).
  etrans; [| exact Hsub]. by apply insert_subseteq.
Qed.

(** The example of the specification: [Success("a", { x: 1 })] chained into
    a callback that returns [Success("b", { x: 2, y: 3 })] has the merged
    context [{ x: 2, y: 3 }]. *)
Lemma and_then_success_merges_witness :
  ∃ r' w', and_then ex_success ex_fn_next ex_world = (Normal r', w') ∧
    own_enumerable (w_heap w') (context r')
      = {[ "x" := VNumber 2; "y" := VNumber 3 ]} ∧
    getValue r' = VString "b" ∧
    isSuccess r' = true.
Proof.
  destruct (and_then_success_merges ex_success ex_next ex_fn_next ex_world ex_heap)
    as (r' & w' & Heq & _ & _ & Hctx & _ & Hok & Hv & _).
  - reflexivity.
  - reflexivity.
  - repeat split.
  - exists r', w'. split; [exact Heq |]. split; [| split; [exact Hv | exact Hok]].
    rewrite Hctx. vm_compute. reflexivity.
Defined.




(** ** Observation hooks *)

(** C4: [onSuccess] calls [f(value, r)] exactly when [r] is a success, and
    [onFailure] calls [f(error, r)] exactly when [r] is a failure whose type
    is the match type ("FAILURE" by default); otherwise the world is left
    as it is.  In both branches the hook returns the instance [r] itself;
    an exception of the callback is not caught. *)
Theorem onSuccess_onFailure_hooks (r : Result) (f : value → Result → ucode unit)
    (matchType : option string) (w : world) :
  onSuccess r f w =
    (if isSuccess r
     then (hook_outcome r (f (getValue r) r (w_heap w)).1,
           World (f (getValue r) r (w_heap w)).2
                 (w_calls w ++ [[getValue r; VObject (rid r)]]))
     else (Normal r, w)) ∧
  onFailure r f matchType w =
    (if decide (isFailure r = true ∧ getType r = default "FAILURE" matchType)
     then (hook_outcome r (f (getError r) r (w_heap w)).1,
           World (f (getError r) r (w_heap w)).2
                 (w_calls w ++ [[getError r; VObject (rid r)]]))
     else (Normal r, w)).
Proof.
  split.
  - unfold onSuccess, isSuccess, mbind, M_bind, call.
    destruct (_isSuccess r); [| done].
    by destruct (f (getValue r) r (w_heap w)) as [[[]|e] h'].
  - unfold onFailure, getType, mbind, M_bind, call.
    destruct (decide _) as [[Hfail Ht]|Hn].
    + rewrite Hfail, Ht, String.eqb_refl. simpl.
      by destruct (f (getError r) r (w_heap w)) as [[[]|e] h'].
    + destruct (isFailure r) eqn:Hfail; [| done]. simpl.
      destruct (String.eqb_spec (resultType r) (default "FAILURE" matchType)); [| done].
      by destruct Hn.
Qed.

(** On the success of the examples the observer is called with the value
    and the instance; on the failure of type "NOT_FOUND" it is called when
    that type is asked for, and not for the default type. *)
Example hooks_on_examples :
  onSuccess ex_success ex_observer ex_world
    = (Normal ex_success, World ex_heap [[VString "a"; VObject 11%positive]]) ∧
  onSuccess ex_failure ex_observer ex_world = (Normal ex_failure, ex_world) ∧
  onFailure ex_failure ex_observer None ex_world = (Normal ex_failure, ex_world) ∧
  onFailure ex_failure ex_observer (Some "NOT_FOUND") ex_world
    = (Normal ex_failure, World ex_heap [[VObject 1%positive; VObject 10%positive]]).
Proof. repeat split. Qed.

(** ** ResultPromise *)

(** C9: for a wrapped promise that fulfils with [r], the promise of
    [ResultPromise#and_then] settles as [Result#and_then] on [r] does; if
    [r] is a failure, the callback is not called and the promise fulfils
    with a failure that has the error of [r]. *)
Theorem ResultPromise_and_then_refines (p : ResultPromise) (r : Result)
    (fn : value → Result → ucode Result) (w : world)
    (Hp : promise p = Normal r) (Hwf : Result_wf r) :
  ∃ q w', ResultPromise.and_then p fn w = (Normal q, w') ∧
    ResultPromise.toResult q w' = and_then r fn w ∧
    (isFailure r = true →
     w_calls w' = w_calls w ∧
     ∃ r', promise q = Normal r' ∧ isFailure r' = true ∧ getError r' = getError r).
Proof.
  unfold ResultPromise.and_then, ResultPromise.toResult, Promise_then, await,
    mbind, M_bind, mret, M_ret.
  rewrite Hp. destruct (and_then r fn w) as [o w'] eqn:Heq.
  exists (mkResultPromise o), w'. split; [done |]. split; [done |]. simpl.
  intros Hfail.
  destruct (wp_returns (and_then r fn) w (λ r' w',
      w_calls w' = w_calls w ∧ isFailure r' = true ∧ getError r' = getError r))
    as (r' & w'' & Heq' & Hcalls & H).
  { apply wp_and_then_failure; [done.. |]. intros r' h' _ ? ? _ _ _. by exists r'. }
  rewrite Heq in Heq'. simplify_eq. split; [done |]. by exists r'.
Qed.

Lemma ResultPromise_and_then_refines_witness :
  ∃ q w', ResultPromise.and_then (mkResultPromise (Normal ex_failure)) ex_fn_next ex_world
            = (Normal q, w') ∧
    ResultPromise.toResult q w' = and_then ex_failure ex_fn_next ex_world ∧
    w_calls w' = [] ∧
    ∃ r', promise q = Normal r' ∧ isFailure r' = true ∧ getError r' = VObject 1%positive.
Proof.
  destruct (ResultPromise_and_then_refines (mkResultPromise (Normal ex_failure)) ex_failure
              ex_fn_next ex_world) as (q & w' & Heq & Hres & Hfail).
  - reflexivity.
  - repeat split.
  - exists q, w'. split; [exact Heq |]. split; [exact Hres |].
    apply Hfail. reflexivity.
Defined.

(** ** Context *)

Lemma wp_or_empty_falsy_at this o hb cs v (Q : outcome value → world → Prop) :
  hb !! this = None →
  (∀ v' hb', hb ⊆ hb' → hb' !! this = None →
             (if js_truthy v then v' = v else sentinel hb hb' v') →
             Q (Normal v') (World (<[this := o]> hb') cs)) →
  wp (or_empty_falsy v) (World (<[this := o]> hb) cs) Q.
Proof.
  intros Hthis. unfold or_empty_falsy.
  destruct (js_truthy v); intros H.
  - by apply wp_ret, H.
  - apply wp_new_object_at; [done |]. intros l Hne Hl. rewrite fmap_empty. apply H.
    + by apply insert_subseteq.
    + by rewrite lookup_insert_ne.
    + exists l. by rewrite lookup_insert_eq.
Qed.

Lemma own_enumerable_falsy h v : js_truthy v = false → own_enumerable h v = ∅.
Proof.
  destruct v as [| |b|n|s|l]; try done. simpl.
  destruct (String.eqb_spec s ""); [| done]. by subst.
Qed.

Lemma own_enumerable_sentinel h h' v : sentinel h h' v → own_enumerable h' v = ∅.
Proof.
  intros (l & -> & _ & Hl). unfold own_enumerable. rewrite Hl. simpl.
  by rewrite map_filter_empty, fmap_empty.
Qed.

(** What the spread in the constructor reads from [v || {}] is what [v]
    holds in the initial heap. *)
Lemma own_enumerable_or_empty h hf v v' :
  valid h v → h ⊆ hf →
  (if js_truthy v then v' = v else sentinel h hf v') →
  own_enumerable hf v' = own_enumerable h v.
Proof.
  intros Hv Hsub Hv'. destruct (js_truthy v) eqn:Ht.
  - subst v'. by apply own_enumerable_weaken.
  - by rewrite (own_enumerable_sentinel _ _ _ Hv'), own_enumerable_falsy.
Qed.

Lemma sentinel_if_weaken h0 h h' h'' (b : bool) v v' :
  h0 ⊆ h → h' ⊆ h'' →
  (if b then v' = v else sentinel h h' v') →
  (if b then v' = v else sentinel h0 h'' v').
Proof. destruct b; [done | apply sentinel_weaken]. Qed.

(** The copying loop, as a fold over the entries. *)
Lemma wp_copy_loop this cls hb cs (l : list (string * value)) P
    (Q : outcome unit → world → Prop) :
  Q (Normal ()) (World (<[this := Object cls (foldl (copy_step cls) P l)]> hb) cs) →
  wp (forEach l (λ '(key, value),
        present ← in_this this key;
        if negb present
        then define_prop this key (Property value false true true)
        else mret ()))
     (World (<[this := Object cls P]> hb) cs) Q.
Proof.
  revert P. induction l as [|[k v] l IH]; intros P H; simpl.
  - by apply wp_ret.
  - apply wp_bind, wp_bind. unfold in_this. apply wp_bind, wp_get_heap, wp_ret. simpl.
    rewrite lookup_insert_eq. simpl in H. unfold copy_step in H at 2. simpl in H.
    destruct (js_in k (Object cls P)); simpl.
    + by apply wp_ret, IH.
    + by apply wp_define_prop_at, IH.
Qed.

(** The own properties after the loop: a name that the instance already
    has, as an own property or from its prototype chain, is left as it is;
    any other name gets the first entry of the list for it. *)
Lemma copy_fold_lookup cls (l : list (string * value)) P key :
  foldl (copy_step cls) P l !! key =
    if js_in key (Object cls P) then P !! key
    else (λ v, Property v false true true) <$> (list_to_map l : gmap string value) !! key.
Proof.
  revert P. induction l as [|[k v] l IH]; intros P; simpl.
  - rewrite lookup_empty. simpl. unfold js_in. simpl.
    destruct (P !! key) eqn:HP; [by rewrite bool_decide_true | by destruct (_ || _)].
  - rewrite IH. unfold copy_step. simpl. destruct (decide (k = key)) as [->|Hne].
    + destruct (js_in key (Object cls P)) eqn:Hin; [by rewrite Hin |].
      unfold js_in. simpl. rewrite !lookup_insert_eq. simpl.
      by rewrite ?lookup_insert_eq.
    + rewrite (lookup_insert_ne _ k key) by done.
      assert (∀ p, js_in key (Object cls (<[k := p]> P)) = js_in key (Object cls P)) as Hin.
      { intros p. unfold js_in. simpl. by rewrite lookup_insert_ne. }
      destruct (js_in k (Object cls P)); [done |].
      by rewrite Hin, lookup_insert_ne.
Qed.

Lemma wp_new_Context sub input data w (Q : outcome value → world → Prop) :
  valid (w_heap w) input → valid (w_heap w) data →
  (∀ c h', w_heap w ⊆ h' → Context_of (w_heap w) h' sub input data c →
           Q (Normal c) (World h' (w_calls w))) →
  wp (new_Context sub input data) w Q.
Proof.
  intros Hvi Hvd H. unfold new_Context.
  apply wp_bind, wp_alloc. intros this Hthis.
  apply wp_bind, wp_or_empty_nullish_at; [done |]. intros ip h1 Hsub1 Hthis1 Hip.
  apply wp_bind, wp_define_prop_at. simpl.
  apply wp_bind, wp_or_empty_nullish_at; [done |]. intros op h2 Hsub2 Hthis2 Hop.
  apply wp_bind, wp_define_prop_at. simpl.
  apply wp_bind, wp_or_empty_falsy_at; [done |]. intros a h3 Hsub3 Hthis3 Ha.
  apply wp_bind, wp_or_empty_falsy_at; [done |]. intros b h4 Hsub4 Hthis4 Hb.
  set (P0 := <["_outputParams" := data_property op]>
               (<["_inputParams" := data_property ip]> (∅ : gmap string property))).
  set (cls := ClassContext sub).
  assert (w_heap w ⊆ h2) as Hs2 by (by etrans).
  assert (w_heap w ⊆ h3) as Hs3 by (by etrans).
  assert (w_heap w ⊆ h4) as Hsub by (by etrans).
  assert (h4 ⊆ <[this := Object cls P0]> h4) as Hsub' by by apply insert_subseteq.
  apply wp_bind. unfold spread2. apply wp_bind, wp_get_heap. simpl.
  assert (own_enumerable (<[this := Object cls P0]> h4) a
            = own_enumerable (w_heap w) input) as ->.
  { apply own_enumerable_or_empty; [done | by etrans |].
    eapply sentinel_if_weaken; [exact Hs2 | | exact Ha]. by etrans. }
  assert (own_enumerable (<[this := Object cls P0]> h4) b
            = own_enumerable (w_heap w) data) as ->.
  { apply own_enumerable_or_empty; [done | by etrans |].
    eapply sentinel_if_weaken; [exact Hs3 | exact Hsub' | exact Hb]. }
  set (merged := own_enumerable (w_heap w) data ∪ own_enumerable (w_heap w) input).
  apply wp_new_object_at; [done |]. intros lp Hne Hlp.
  set (h5 := <[lp := Object ClassObject (data_property <$> merged)]> h4).
  assert (h5 !! this = None) as Hthis5 by (by unfold h5; rewrite lookup_insert_ne).
  assert (h4 ⊆ h5) as Hsub5 by by apply insert_subseteq.
  apply wp_bind, wp_get_heap. cbn [w_heap].
  rewrite (own_enumerable_literal _ lp merged).
  2: { rewrite lookup_insert_ne by done. unfold h5. by rewrite lookup_insert_eq. }
  apply wp_bind, wp_copy_loop, wp_ret.
  set (Pf := foldl (copy_step cls) P0 (map_to_list merged)).
  assert (h5 ⊆ <[this := Object cls Pf]> h5) as Hsubf by by apply insert_subseteq.
  assert (∀ key, Pf !! key =
            if js_in key (Object cls P0) then P0 !! key
            else (λ v, Property v false true true) <$> merged !! key) as HPf.
  { intros key. unfold Pf. by rewrite copy_fold_lookup, list_to_map_to_list. }
  assert (Pf !! "_inputParams" = Some (data_property ip)) as Hin.
  { by rewrite HPf. }
  assert (Pf !! "_outputParams" = Some (data_property op)) as Hout.
  { by rewrite HPf. }
  assert (h4 ⊆ <[this := Object cls Pf]> h5) as Hsub4f by (by etrans).
  apply H.
  - by etrans.
  - unfold Context_of, getInput, getOutput, get_prop, own_property, class_of, valid.
    rewrite lookup_insert_eq, Hthis. simpl. rewrite Hin, Hout. simpl.
    split; [by intros [? ?] |]. repeat split; try done.
    + eapply or_sentinel_weaken; [reflexivity | | exact Hip].
      etrans; [exact Hsub2 |]. etrans; [exact Hsub3 |]. by etrans.
    + eapply or_sentinel_weaken; [exact Hsub1 | | exact Hop].
      etrans; [exact Hsub3 |]. by etrans.
    + intros key. rewrite HPf.
      repeat case_decide; subst; try done.
      all: unfold js_in, P0; simpl.
      all: rewrite !lookup_insert_ne, lookup_empty by done; simpl.
      all: by rewrite ?bool_decide_true, ?bool_decide_false by done.
Qed.

(** A Context stays what it is when the heap grows. *)
Lemma Context_of_weaken h h1 h2 sub input data c :
  h1 ⊆ h2 → Context_of h h1 sub input data c → Context_of h h2 sub input data c.
Proof.
  intros Hsub (Hnew & Hcls & Hin & Hout & Hkeys).
  destruct c as [| | | | |l]; try done. simpl in Hcls.
  destruct (h1 !! l) as [o|] eqn:Ho; [| done].
  assert (h2 !! l = Some o) as Ho2 by by eapply lookup_weaken.
  assert (∀ key, get_prop h2 (VObject l) key = get_prop h1 (VObject l) key) as Hget.
  { intros key. unfold get_prop. by rewrite Ho, Ho2. }
  unfold Context_of, getInput, getOutput in *. rewrite !Hget.
  split; [done |]. split; [by simpl; rewrite Ho2 |].
  split; [by eapply or_sentinel_weaken |]. split; [by eapply or_sentinel_weaken |].
  intros key. rewrite <- Hkeys. simpl. by rewrite Ho, Ho2.
Qed.

(** [getInput()] and [getOutput()] return the arguments themselves unless
    these are [null] or [undefined]. *)
Lemma Context_of_getInput h h' sub input data c :
  Context_of h h' sub input data c → js_nullish input = false →
  getInput h' c = input.
Proof. intros (_ & _ & Hin & _) Hn. unfold or_sentinel in Hin. by rewrite Hn in Hin. Qed.

Lemma Context_of_getOutput h h' sub input data c :
  Context_of h h' sub input data c → js_nullish data = false →
  getOutput h' c = data.
Proof. intros (_ & _ & _ & Hout & _) Hn. unfold or_sentinel in Hout. by rewrite Hn in Hout. Qed.

(** C8: [new Context(input, data)] returns a new instance whose
    [getInput()] and [getOutput()] are the arguments themselves (the
    empty-object sentinel for an absent one), and which has every
    enumerable own property of [input] and of [data] as a non-writable,
    enumerable, configurable own data property, the value of [data]
    winning, except for the names already present on the instance, which
    stay as they are. *)
Theorem Context_constructor (sub : list string) (input data : value) (w : world)
    (Hinput : valid (w_heap w) input) (Hdata : valid (w_heap w) data) :
  ∃ c w', new_Context sub input data w = (Normal c, w') ∧
    Context_of (w_heap w) (w_heap w') sub input data c ∧
    w_heap w ⊆ w_heap w' ∧
    w_calls w' = w_calls w.
Proof.
  apply wp_returns, wp_new_Context; [done.. |].
  intros c h' Hsub Hc. by exists c.
Qed.

(** An input [{ x: 1 }] and an output [{ x: 2, y: 3 }]: the instance
    exposes [x = 2] and [y = 3]. *)
Lemma Context_constructor_witness :
  ∃ c w', new_Context [] (VObject 3%positive) (VObject 4%positive) ex_world = (Normal c, w') ∧
    getInput (w_heap w') c = VObject 3%positive ∧
    getOutput (w_heap w') c = VObject 4%positive ∧
    own_property (w_heap w') c "x" = Some (Property (VNumber 2) false true true) ∧
    own_property (w_heap w') c "y" = Some (Property (VNumber 3) false true true) ∧
    own_property (w_heap w') c "getInput" = None.
Proof.
  destruct (Context_constructor [] (VObject 3%positive) (VObject 4%positive) ex_world)
    as (c & w' & Heq & Hc & _).
  - vm_compute. eexists. reflexivity.
  - vm_compute. eexists. reflexivity.
  - exists c, w'. split; [exact Heq |].
    split; [exact (Context_of_getInput _ _ _ _ _ _ Hc eq_refl) |].
    split; [exact (Context_of_getOutput _ _ _ _ _ _ Hc eq_refl) |].
    destruct Hc as (_ & _ & _ & _ & Hkeys).
    rewrite !Hkeys. repeat split.
Defined.

(** The test "should not override existing properties": in a subclass
    that defines an accessor [id], the key [id] of the input is skipped and
    the key [name] is copied. *)
Example Context_subclass_accessor :
  ∃ c w', new_Context ["id"] (VObject 5%positive) (VObject 3%positive) ex_world
            = (Normal c, w') ∧
    own_property (w_heap w') c "id" = None ∧
    own_property (w_heap w') c "name" = Some (Property (VString "Test") false true true) ∧
    own_property (w_heap w') c "x" = Some (Property (VNumber 1) false true true).
Proof. eexists _, _. split; [vm_compute; reflexivity |]. by vm_compute. Qed.

(** A string input is spread into its characters, and [null] into
    nothing; [getInput()] of an absent input is an empty object. *)
Example Context_primitive_input :
  ∃ c w', new_Context [] (VString "ab") VNull ex_world = (Normal c, w') ∧
    getInput (w_heap w') c = VString "ab" ∧
    own_property (w_heap w') c "0" = Some (Property (VString "a") false true true) ∧
    own_property (w_heap w') c "1" = Some (Property (VString "b") false true true) ∧
    own_enumerable (w_heap w') (getOutput (w_heap w') c) = ∅ ∧
    js_nullish (getOutput (w_heap w') c) = false.
Proof. eexists _, _. split; [vm_compute; reflexivity |]. by vm_compute. Qed.

(** ** UseCase *)

(** [_executeWithErrorHandling] of the variant with a concrete base class
    is the body of [UseCase.call], and the promise that its [call] wraps
    settles with the outcome of that body. *)
Lemma BaseUseCase_call_toResult (uc : UseCase) (params : value) (w : world) :
  BaseUseCase._executeWithErrorHandling uc params w = UseCase.call uc params w ∧
  ∃ p w', BaseUseCase.call uc params w = (Normal p, w') ∧
    ResultPromise.toResult p w' = UseCase.call uc params w.
Proof.
  split; [done |].
  unfold BaseUseCase.call, BaseUseCase._executeWithErrorHandling, async,
    ResultPromise.toResult, await, mbind, M_bind, mret, M_ret.
  destruct (UseCase.call uc params w) as [o w']. by eexists _, _.
Qed.

(** C6: when [execute(input)] fulfils with a success of value [v],
    [call(input)] returns a success of value [v], labelled with the name of
    the use case, whose context is a new object with the single entry
    [name ↦ new Context(input, v)], whatever the context of the inner
    Result. *)
Theorem UseCase_call_success (uc : UseCase) (input : value) (w : world)
    (res : Result) (h1 : gmap loc object)
    (Hexec : execute uc input (w_heap w) = (Normal res, h1))
    (Hok : isSuccess res = true)
    (Hwf : Result_wf res)
    (Hinput : valid h1 input)
    (Hvalue : valid h1 (getValue res)) :
  ∃ r' w' c, UseCase.call uc input w = (Normal r', w') ∧
    isSuccess r' = true ∧
    getValue r' = getValue res ∧
    useCaseClass r' = name uc ∧
    ¬ valid h1 (context r') ∧
    own_enumerable (w_heap w') (context r') = {[ name uc := c ]} ∧
    Context_of h1 (w_heap w') [] input (getValue res) c ∧
    h1 ⊆ w_heap w'.
Proof.
  destruct Hwf as (Hd & _ & _).
  cut (∃ r' w', UseCase.call uc input w = (Normal r', w') ∧ ∃ c,
         isSuccess r' = true ∧ getValue r' = getValue res ∧ useCaseClass r' = name uc ∧
         ¬ valid h1 (context r') ∧
         own_enumerable (w_heap w') (context r') = {[ name uc := c ]} ∧
         Context_of h1 (w_heap w') [] input (getValue res) c ∧ h1 ⊆ w_heap w').
  { intros (r' & w' & Heq & c & H). by exists r', w', c. }
  apply wp_returns. unfold UseCase.call.
  apply wp_try_catch, wp_bind, wp_call. rewrite Hexec. simpl.
  unfold isFailure. unfold isSuccess in Hok. rewrite Hok. simpl.
  apply wp_bind, wp_new_Context; [done.. |]. simpl. intros c h2 Hsub2 Hc.
  apply wp_bind, wp_new_object. simpl. intros lc Hlc.
  apply wp_Success. simpl.
  intros r' h' Hsub _ _ _ Hok' Hu Hdata _ Hctx. exists r'. split; [done |]. exists c.
  unfold or_sentinel in Hdata, Hctx. unfold getValue in *. rewrite Hd in Hdata.
  simpl in Hctx, Hu.
  assert (h2 ⊆ h') as Hsub'.
  { etrans; [| exact Hsub]. by apply insert_subseteq. }
  assert (h' !! lc = Some (Object ClassObject
            (data_property <$> ({[ name uc := c ]} : gmap string value)))) as Hobj.
  { eapply lookup_weaken; [| exact Hsub]. by rewrite lookup_insert_eq. }
  rewrite Hctx. unfold isSuccess. repeat (split; [done |]).
  split; [simpl; rewrite (lookup_weaken_None _ _ _ Hlc Hsub2); by intros [? ?] |].
  split; [by apply own_enumerable_literal |].
  split; [by eapply Context_of_weaken | by etrans].
Qed.

(** The example of the specification: [SuccessUseCase] called with "test"
    gives a success of value 4 labelled "SuccessUseCase", whose context
    holds, under that name, a Context with input "test" and output 4. *)
Lemma UseCase_call_success_witness :
  ∃ r' w' c, UseCase.call SuccessUseCase (VString "test") (World ∅ []) = (Normal r', w') ∧
    isSuccess r' = true ∧
    getValue r' = VNumber 4 ∧
    useCaseClass r' = "SuccessUseCase" ∧
    own_enumerable (w_heap w') (context r') = {[ "SuccessUseCase" := c ]} ∧
    getInput (w_heap w') c = VString "test" ∧
    getOutput (w_heap w') c = VNumber 4.
Proof.
  destruct (UseCase_call_success SuccessUseCase (VString "test") (World ∅ [])
              (mkResult 1%positive "SUCCESS" (VNumber 4) (VObject 2%positive)
                 (VObject 3%positive) "" true)
              (execute SuccessUseCase (VString "test") ∅).2)
    as (r' & w' & c & Heq & Hok & Hv & Hu & _ & Hctx & Hc & _).
  - vm_compute. reflexivity.
  - reflexivity.
  - repeat split.
  - exact I.
  - exact I.
  - exists r', w', c. split; [exact Heq |]. split; [exact Hok |]. split; [exact Hv |].
    split; [exact Hu |]. split; [exact Hctx |].
    split; [exact (Context_of_getInput _ _ _ _ _ _ Hc eq_refl) |].
    exact (Context_of_getOutput _ _ _ _ _ _ Hc eq_refl).
Defined.




(** * Further properties of the library *)

(** ** The constructor *)

Lemma wp_eq {A} (m : M A) w (x : outcome A * world) :
  wp m w (λ o w', (o, w') = x) → m w = x.
Proof. unfold wp. by destruct (m w). Qed.

(** X1: the constructor never throws and leaves every existing object as
    it is; the instance is new, its heap object carries the six fields,
    and none of [data], [error] and [context] is [null] or [undefined],
    whatever was passed. *)
Theorem Result_constructor_invariant (rt : string) (ok : bool) (e d c : value)
    (u : option string) (w : world) :
  ∃ r w', new_Result rt ok e d c u w = (Normal r, w') ∧
    Result_wf r ∧
    resultType r = rt ∧ isSuccess r = ok ∧ isFailure r = negb ok ∧
    ¬ valid (w_heap w) (VObject (rid r)) ∧
    w_heap w' !! rid r = Some (Result_object r) ∧
    w_heap w ⊆ w_heap w' ∧
    w_calls w' = w_calls w.
Proof.
  apply wp_returns, wp_new_Result.
  intros r h' Hsub Hnew Hobj Ht Hok _ Hd He Hc. exists r. split; [done |].
  unfold isFailure, isSuccess. rewrite Hok. simpl.
  split; [repeat split; by eapply or_sentinel_nullish |].
  repeat (split; [done |]). split; [| done].
  rewrite Hnew. by intros [? ?].
Qed.

(** X2: the sentinels are not shared.  [new Result({ resultType,
    isSuccess })] holds three different new empty objects as [data],
    [error] and [context], and the empty string as label. *)
Theorem Result_default_sentinels (rt : string) (ok : bool) (w : world) :
  ∃ r w', new_Result rt ok VUndefined VUndefined VUndefined None w = (Normal r, w') ∧
    sentinel (w_heap w) (w_heap w') (data r) ∧
    sentinel (w_heap w) (w_heap w') (error r) ∧
    sentinel (w_heap w) (w_heap w') (context r) ∧
    data r ≠ error r ∧ data r ≠ context r ∧ error r ≠ context r ∧
    useCaseClass r = "".
Proof.
  apply wp_returns. unfold new_Result.
  apply wp_bind, wp_alloc. intros this Hthis.
  do 2 apply wp_bind, wp_define_prop_at.
  apply wp_bind, wp_or_empty_nullish_at; [done |]. intros d' h1 Hsub1 Hthis1 Hd.
  apply wp_bind, wp_define_prop_at.
  apply wp_bind, wp_or_empty_nullish_at; [done |]. intros e' h2 Hsub2 Hthis2 He.
  do 2 apply wp_bind, wp_define_prop_at.
  apply wp_bind, wp_or_empty_nullish_at; [done |]. intros c' h3 Hsub3 Hthis3 Hc.
  apply wp_bind, wp_define_prop_at. apply wp_ret. simpl.
  eexists. split; [done |]. simpl.
  destruct Hd as (ld & -> & Hld & Hld1).
  destruct He as (le & -> & Hle & Hle2).
  destruct Hc as (lc & -> & Hlc & Hlc3).
  pose proof (lookup_weaken _ _ _ _ Hld1 Hsub2) as Hld2.
  pose proof (lookup_weaken _ _ _ _ Hld2 Hsub3) as Hld3.
  pose proof (lookup_weaken _ _ _ _ Hle2 Hsub3) as Hle3.
  assert (ld ≠ this ∧ le ≠ this ∧ lc ≠ this) as (? & ? & ?).
  { repeat split; intros ->; congruence. }
  repeat split.
  - exists ld. rewrite lookup_insert_ne by done. by rewrite Hld3.
  - exists le. rewrite lookup_insert_ne by done.
    split; [done |]. split; [by eapply lookup_weaken_None | done].
  - exists lc. rewrite lookup_insert_ne by done.
    split; [done |]. split; [| done].
    eapply lookup_weaken_None; [exact Hlc |]. by etrans.
  - intros [= ->]. congruence.
  - intros [= ->]. congruence.
  - intros [= ->]. congruence.
Qed.

(** ** [and_then] on every path *)


Lemma wp_and_then_throws s fn w e h1 (Q : outcome Result → world → Prop) :
  isSuccess s = true →
  fn (getValue s) s (w_heap w) = (Thrown e, h1) →
  convertible h1 e →
  (∀ r' h',
     h1 ⊆ h' → h1 !! rid r' = None → h' !! rid r' = Some (Result_object r') →
     Result_wf r' →
     isFailure r' = true → resultType r' = "UNEXPECTED_ERROR" →
     useCaseClass r' = useCaseClass s →
     normalized_error h1 h' e (getError r') →
     get_prop h' (context r') "rawError" = e →
     Q (Normal r') (World h' (w_calls w ++ [[getValue s; VObject (rid s)]]))) →
  wp (and_then s fn) w Q.
Proof.
  intros Hs Hfn Hconv H. unfold and_then, isFailure. unfold isSuccess in Hs. rewrite Hs. simpl.
  apply wp_try_catch, wp_bind, wp_call. rewrite Hfn. simpl.
  apply wp_bind, wp_normalize_error; [done |]. simpl. intros e' h2 Hsub2 He'.
  apply wp_bind, wp_spread_with. simpl. intros lc Hlc.
  apply wp_Failure. simpl.
  intros r' h' Hsub Hnew Hobj Ht Hok Hu Hd Herr Hc.
  assert (h2 ⊆ h') as Hsub'.
  { etrans; [| exact Hsub]. by apply insert_subseteq. }
  assert (Result_wf r') as Hwf.
  { repeat split; [by destruct Hd as (l & -> & _) | by eapply or_sentinel_nullish..]. }
  unfold or_sentinel in Herr, Hc. rewrite (normalized_error_nullish _ _ _ _ He') in Herr.
  simpl in Hc, Hu, Ht.
  apply H; try done.
  - by etrans.
  - eapply lookup_weaken_None; [exact Hnew |]. etrans; [exact Hsub2 |]. by apply insert_subseteq.
  - unfold isFailure. by rewrite Hok.
  - unfold getError. rewrite Herr.
    unfold normalized_error in *. destruct (instanceof_Error h1 e); [done |].
    destruct He' as (l & s0 & Hs0 & -> & Hl & Hl2). exists l, s0. repeat split; [done.. |].
    by eapply lookup_weaken.
  - rewrite Hc. unfold get_prop.
    rewrite (lookup_weaken _ _ lc _ (lookup_insert_eq _ _ _) Hsub). simpl.
    by rewrite lookup_fmap, lookup_insert_eq.
Qed.

Lemma wp_throws {A} (m : M A) w (P : value → world → Prop) :
  wp m w (λ o w', ∃ e, o = Thrown e ∧ P e w') →
  ∃ e w', m w = (Thrown e, w') ∧ P e w'.
Proof.
  unfold wp. destruct (m w) as [o w']. simpl. intros (e & -> & H). eauto.
Qed.



(** ** Chains *)

Lemma wp_and_then_failure_wf r fn w (Q : outcome Result → world → Prop) :
  Result_wf r → isFailure r = true →
  (∀ r' h',
     w_heap w ⊆ h' → Result_wf r' → isFailure r' = true →
     getError r' = getError r → resultType r' = resultType r →
     context r' = context r → useCaseClass r' = useCaseClass r →
     Q (Normal r') (World h' (w_calls w))) →
  wp (and_then r fn) w Q.
Proof.
  intros (_ & He & Hc) Hfail H. unfold and_then. rewrite Hfail. apply wp_Failure.
  intros r' h' Hsub _ _ Ht Hok Hu Hd Herr Hctx.
  unfold or_sentinel in Herr, Hctx. rewrite He in Herr. rewrite Hc in Hctx.
  apply H; try done.
  - unfold Result_wf. rewrite Herr, Hctx. by destruct Hd as (l & -> & _).
  - unfold isFailure. by rewrite Hok.
Qed.

(** X4: a failure passes through a chain of any length.  None of the
    callbacks is called, and the Result at the end is a failure with the
    error, type, context and label of the first. *)
Theorem and_then_chain_failure (fns : list (value → Result → ucode Result))
    (r : Result) (w : world) (Hwf : Result_wf r) (Hfail : isFailure r = true) :
  ∃ r' w', and_then_chain r fns w = (Normal r', w') ∧
    w_calls w' = w_calls w ∧
    isFailure r' = true ∧
    getError r' = getError r ∧
    resultType r' = resultType r ∧
    context r' = context r ∧
    useCaseClass r' = useCaseClass r ∧
    w_heap w ⊆ w_heap w'.
Proof.
  revert r w Hwf Hfail. induction fns as [|fn fns IH]; intros r w Hwf Hfail.
  - by exists r, w.
  - destruct (wp_returns (and_then r fn) w (λ r1 w1,
        w_calls w1 = w_calls w ∧ w_heap w ⊆ w_heap w1 ∧ Result_wf r1 ∧
        isFailure r1 = true ∧ getError r1 = getError r ∧ resultType r1 = resultType r ∧
        context r1 = context r ∧ useCaseClass r1 = useCaseClass r))
      as (r1 & w1 & Heq & Hcalls & Hsub & Hwf1 & Hfail1 & He & Ht & Hc & Hu).
    { apply wp_and_then_failure_wf; [done.. |]. intros r1 h1 ? ? ? ? ? ? ?. by exists r1. }
    destruct (IH r1 w1 Hwf1 Hfail1)
      as (r' & w' & Heq' & Hcalls' & Hfail' & He' & Ht' & Hc' & Hu' & Hsub').
    exists r', w'. simpl. unfold mbind, M_bind. rewrite Heq.
    repeat split; try congruence. by etrans.
Qed.

Lemma and_then_chain_failure_witness :
  ∃ r' w', and_then_chain ex_failure [ex_fn_next; ex_fn_boom] ex_world = (Normal r', w') ∧
    w_calls w' = [] ∧
    isFailure r' = true ∧
    getError r' = VObject 1%positive ∧
    resultType r' = "NOT_FOUND" ∧
    context r' = VObject 3%positive ∧
    useCaseClass r' = "Lookup" ∧
    w_heap ex_world ⊆ w_heap w'.
Proof.
  apply (and_then_chain_failure [ex_fn_next; ex_fn_boom] ex_failure ex_world).
  - repeat split.
  - reflexivity.
Defined.

(** X5: the fluent chain on a wrapper is the chain of awaited calls.
    Awaiting [rp.and_then(f1) ... .and_then(fn)] has the outcome, and
    leaves the world, of awaiting [rp] and then calling [and_then] with
    [f1], ..., [fn] in this order, each on the Result of the one before;
    a rejection, of [rp] or of a step, ends both in the same way. *)
Theorem ResultPromise_chain_refines (fns : list (value → Result → ucode Result))
    (p : Promise Result) (w : world) :
  (rp ← ResultPromise_chain (mkResultPromise p) fns; ResultPromise.toResult rp) w
  = (r ← await p; and_then_chain r fns) w.
Proof.
  revert p w. induction fns as [|fn fns IH]; intros p w.
  - unfold mbind, M_bind, ResultPromise.toResult, await. simpl. by destruct p.
  - specialize (IH (match p with
                    | Normal r => (and_then r fn w).1
                    | Thrown e => Thrown e
                    end)
                   (match p with
                    | Normal r => (and_then r fn w).2
                    | Thrown e => w
                    end)).
    revert IH. simpl.
    unfold ResultPromise.and_then, Promise_then, ResultPromise.toResult, await,
      mbind, M_bind, mret, M_ret. simpl.
    destruct p as [r|e]; simpl.
    + destruct (and_then r fn w) as [[r1|e1] w1]; simpl; by intros ->.
    + by intros ->.
Qed.

(** A rejection passes through the fluent chain. *)
Lemma ResultPromise_chain_rejected fns e w :
  ResultPromise_chain (mkResultPromise (Thrown e)) fns w
  = (Normal (mkResultPromise (Thrown e)), w).
Proof. induction fns as [|fn fns IH]; [done |]. simpl. by rewrite <- IH. Qed.

(** X7: the hooks of a wrapper never throw and return the wrapper itself,
    also when the callback throws: its exception stays in the promise
    that [then] derives, which nobody holds.  The callback is called
    exactly when the promise fulfils with a Result on which the hook of
    [Result] calls it. *)
Theorem ResultPromise_hooks (rp : ResultPromise) (f : value → Result → ucode unit)
    (matchType : option string) (w : world) :
  ∃ w1 w2,
    ResultPromise.onSuccess rp f w = (Normal rp, w1) ∧
    ResultPromise.onFailure rp f matchType w = (Normal rp, w2) ∧
    w_calls w1 = w_calls w ++
      match promise rp with
      | Normal r => if isSuccess r then [[getValue r; VObject (rid r)]] else []
      | Thrown _ => []
      end ∧
    w_calls w2 = w_calls w ++
      match promise rp with
      | Normal r =>
          if decide (isFailure r = true ∧ getType r = default "FAILURE" matchType)
          then [[getError r; VObject (rid r)]] else []
      | Thrown _ => []
      end.
Proof.
  assert (∃ w1, ResultPromise.onSuccess rp f w = (Normal rp, w1) ∧
            w_calls w1 = w_calls w ++
              match promise rp with
              | Normal r => if isSuccess r then [[getValue r; VObject (rid r)]] else []
              | Thrown _ => []
              end) as (w1 & H1 & Hc1).
  { unfold ResultPromise.onSuccess, Promise_then, onSuccess, isSuccess, call,
      mbind, M_bind, mret, M_ret.
    destruct (promise rp) as [r|e]; simpl.
    - destruct (_isSuccess r); simpl.
      + destruct (f (getValue r) r (w_heap w)) as [[[]|e] h']; simpl; by eexists.
      + eexists. by rewrite app_nil_r.
    - eexists. by rewrite app_nil_r. }
  assert (∃ w2, ResultPromise.onFailure rp f matchType w = (Normal rp, w2) ∧
            w_calls w2 = w_calls w ++
              match promise rp with
              | Normal r =>
                  if decide (isFailure r = true ∧ getType r = default "FAILURE" matchType)
                  then [[getError r; VObject (rid r)]] else []
              | Thrown _ => []
              end) as (w2 & H2 & Hc2).
  { unfold ResultPromise.onFailure, Promise_then, onFailure, getType, call,
      mbind, M_bind, mret, M_ret.
    destruct (promise rp) as [r|e]; simpl.
    - destruct (decide _) as [[Hfail Ht]|Hn].
      + rewrite Hfail, Ht, String.eqb_refl. simpl.
        destruct (f (getError r) r (w_heap w)) as [[[]|e] h']; simpl; by eexists.
      + assert (isFailure r && String.eqb (resultType r) (default "FAILURE" matchType)
                = false) as ->.
        { destruct (isFailure r); [| done]. simpl.
          destruct (String.eqb_spec (resultType r) (default "FAILURE" matchType)); [| done].
          by destruct Hn. }
        simpl. eexists. by rewrite app_nil_r.
    - eexists. by rewrite app_nil_r. }
  by exists w1, w2.
Qed.

(** ** Hooks after a caught exception *)

(** X8: the failure that [and_then] makes of a thrown exception (an
    [Error], or a value that [String] converts) has type
    "UNEXPECTED_ERROR", so [onFailure] with the default match type does
    not call its callback on it, and neither does [onSuccess]; [onFailure]
    asked for "UNEXPECTED_ERROR" calls it with the normalized error and
    the instance. *)
Theorem unexpected_error_hooks (s : Result) (fn : value → Result → ucode Result)
    (f : value → Result → ucode unit) (w : world) (e : value) (h1 : gmap loc object)
    (Hs : isSuccess s = true)
    (Hfn : fn (getValue s) s (w_heap w) = (Thrown e, h1))
    (Hconv : convertible h1 e) :
  ∃ r' w', and_then s fn w = (Normal r', w') ∧
    onFailure r' f None w' = (Normal r', w') ∧
    onSuccess r' f w' = (Normal r', w') ∧
    w_calls (onFailure r' f (Some "UNEXPECTED_ERROR") w').2
      = w_calls w' ++ [[getError r'; VObject (rid r')]] ∧
    normalized_error h1 (w_heap w') e (getError r') ∧
    get_prop (w_heap w') (context r') "rawError" = e.
Proof.
  apply wp_returns. eapply wp_and_then_throws; [done.. |].
  intros r' h' _ _ _ _ Hfail Ht _ Herr Hraw. exists r'. split; [done |].
  unfold onFailure, onSuccess, call, mbind, M_bind, mret, M_ret.
  rewrite Hfail, Ht. unfold isFailure in Hfail.
  destruct (_isSuccess r'); [done |]. simpl.
  repeat split; try done.
  by destruct (f (getError r') r' h') as [[[]|e'] h''].
Qed.

Lemma unexpected_error_hooks_witness :
  ∃ r' w', and_then ex_success ex_fn_boom ex_world = (Normal r', w') ∧
    onFailure r' ex_observer None w' = (Normal r', w') ∧
    onSuccess r' ex_observer w' = (Normal r', w') ∧
    w_calls (onFailure r' ex_observer (Some "UNEXPECTED_ERROR") w').2
      = w_calls w' ++ [[getError r'; VObject (rid r')]] ∧
    normalized_error ex_heap (w_heap w') (VString "boom") (getError r') ∧
    get_prop (w_heap w') (context r') "rawError" = VString "boom".
Proof.
  apply (unexpected_error_hooks ex_success ex_fn_boom ex_observer ex_world
           (VString "boom") ex_heap).
  - reflexivity.
  - reflexivity.
  - right. exists "boom". reflexivity.
Defined.

(** ** Factories *)

(** X9: what the factories do with the optional arguments.  A context
    that is given is kept as the same object, an absent one becomes a new
    empty object; an absent label becomes the empty string; an absent
    failure type becomes "FAILURE".  [Success] always has type "SUCCESS"
    and [Failure] is never a success. *)
Theorem factory_defaults (v e c : value) (t u : option string) (w : world) :
  (∃ r w', Success v c u w = (Normal r, w') ∧
     getType r = "SUCCESS" ∧ isSuccess r = true ∧
     useCaseClass r = default "" u ∧
     (if js_nullish c
      then sentinel (w_heap w) (w_heap w') (context r)
      else context r = c)) ∧
  (∃ r w', Failure e t c u w = (Normal r, w') ∧
     getType r = default "FAILURE" t ∧ isSuccess r = false ∧
     useCaseClass r = default "" u ∧
     (if js_nullish c
      then sentinel (w_heap w) (w_heap w') (context r)
      else context r = c)).
Proof.
  split.
  - apply wp_returns, wp_Success. intros r h' _ _ _ Ht Hok Hu _ _ Hc. by exists r.
  - apply wp_returns, wp_Failure. intros r h' _ _ _ Ht Hok Hu _ _ Hc. by exists r.
Qed.

(** ** [UseCase#call] on every path *)

Lemma wp_conseq {A} (m : M A) w (Q Q' : outcome A → world → Prop) :
  wp m w Q → (∀ o w', Q o w' → Q' o w') → wp m w Q'.
Proof. unfold wp. auto. Qed.

(** The constructor of [Context] returns, whatever its arguments. *)
Lemma wp_new_Context_any sub input data w (Q : outcome value → world → Prop) :
  (∀ c h', w_heap w ⊆ h' → Q (Normal c) (World h' (w_calls w))) →
  wp (new_Context sub input data) w Q.
Proof.
  intros H. unfold new_Context.
  apply wp_bind, wp_alloc. intros this Hthis.
  apply wp_bind, wp_or_empty_nullish_at; [done |]. intros ip h1 Hsub1 Hthis1 _.
  apply wp_bind, wp_define_prop_at. simpl.
  apply wp_bind, wp_or_empty_nullish_at; [done |]. intros op h2 Hsub2 Hthis2 _.
  apply wp_bind, wp_define_prop_at. simpl.
  apply wp_bind, wp_or_empty_falsy_at; [done |]. intros a h3 Hsub3 Hthis3 _.
  apply wp_bind, wp_or_empty_falsy_at; [done |]. intros b h4 Hsub4 Hthis4 _.
  apply wp_bind. unfold spread2. apply wp_bind, wp_get_heap. cbn [w_heap].
  apply wp_new_object_at; [done |]. intros lp Hne Hlp.
  apply wp_bind, wp_get_heap. cbn [w_heap].
  apply wp_bind, wp_copy_loop, wp_ret. apply H.
  etrans; [exact Hsub1 |]. etrans; [exact Hsub2 |]. etrans; [exact Hsub3 |].
  etrans; [exact Hsub4 |]. etrans; [by apply (insert_subseteq h4 lp) |].
  apply insert_subseteq. by rewrite lookup_insert_ne.
Qed.

(** The handler of [UseCase#call]. *)
Lemma wp_UseCase_call_throws uc input w e h1 (Q : outcome Result → world → Prop) :
  execute uc input (w_heap w) = (Thrown e, h1) →
  convertible h1 e →
  (∀ r' h',
     h1 ⊆ h' → h1 !! rid r' = None → Result_wf r' →
     isFailure r' = true → resultType r' = "UNEXPECTED_ERROR" →
     useCaseClass r' = name uc →
     normalized_error h1 h' e (getError r') →
     own_enumerable h' (context r') = {[ "rawError" := e ]} →
     Q (Normal r') (World h' (w_calls w ++ [[input]]))) →
  wp (UseCase.call uc input) w Q.
Proof.
  intros Hexec Hconv H. unfold UseCase.call.
  apply wp_try_catch, wp_bind, wp_call. rewrite Hexec. simpl.
  apply wp_bind, wp_normalize_error; [done |]. simpl. intros e' h2 Hsub2 He'.
  apply wp_bind, wp_new_object. simpl. intros lc Hlc.
  apply wp_Failure. simpl.
  intros r' h' Hsub Hnew _ Ht Hok Hu Hd Herr Hc.
  assert (Result_wf r') as Hwf.
  { repeat split; [by destruct Hd as (l & -> & _) | by eapply or_sentinel_nullish..]. }
  unfold or_sentinel in Herr, Hc. rewrite (normalized_error_nullish _ _ _ _ He') in Herr.
  simpl in Hc, Hu, Ht.
  assert (h2 ⊆ h') as Hsub'.
  { etrans; [| exact Hsub]. by apply insert_subseteq. }
  apply H; try done.
  - by etrans.
  - eapply lookup_weaken_None; [exact Hnew |]. etrans; [exact Hsub2 |]. by apply insert_subseteq.
  - unfold isFailure. by rewrite Hok.
  - unfold getError. rewrite Herr.
    unfold normalized_error in *. destruct (instanceof_Error h1 e); [done |].
    destruct He' as (l & s0 & Hs0 & -> & Hl & Hl2). exists l, s0. repeat split; [done.. |].
    by eapply lookup_weaken.
  - rewrite Hc. apply own_enumerable_literal.
    eapply lookup_weaken; [| exact Hsub]. by rewrite lookup_insert_eq.
Qed.

(** The branch of [UseCase#call] for a failure of [execute]. *)
Lemma wp_UseCase_call_failure uc input w res h1 (Q : outcome Result → world → Prop) :
  execute uc input (w_heap w) = (Normal res, h1) →
  isFailure res = true →
  (∀ r' h',
     h1 ⊆ h' → h1 !! rid r' = None → Result_wf r' →
     isFailure r' = true → resultType r' = resultType res →
     useCaseClass r' = name uc →
     or_sentinel h1 h' (error res) (error r') →
     or_sentinel h1 h' (context res) (context r') →
     Q (Normal r') (World h' (w_calls w ++ [[input]]))) →
  wp (UseCase.call uc input) w Q.
Proof.
  intros Hexec Hfail H. unfold UseCase.call.
  apply wp_try_catch, wp_bind, wp_call. rewrite Hexec. simpl. rewrite Hfail.
  apply wp_Failure. simpl.
  intros r' h' Hsub Hnew _ Ht Hok Hu Hd Herr Hc.
  apply H; try done.
  - repeat split; [by destruct Hd as (l & -> & _) | by eapply or_sentinel_nullish..].
  - unfold isFailure. by rewrite Hok.
Qed.

(** The branch of [UseCase#call] for a success of [execute]. *)
Lemma wp_UseCase_call_success uc input w res h1 (Q : outcome Result → world → Prop) :
  execute uc input (w_heap w) = (Normal res, h1) →
  isSuccess res = true →
  (∀ r' h' c lc,
     h1 ⊆ h' → h1 !! rid r' = None → Result_wf r' →
     _isSuccess r' = true → resultType r' = "SUCCESS" →
     useCaseClass r' = name uc →
     or_sentinel h1 h' (data res) (data r') →
     context r' = VObject lc → h1 !! lc = None →
     h' !! lc = Some (Object ClassObject
                        (data_property <$> ({[ name uc := c ]} : gmap string value))) →
     (valid h1 input → valid h1 (getValue res) →
      Context_of h1 h' [] input (getValue res) c) →
     Q (Normal r') (World h' (w_calls w ++ [[input]]))) →
  wp (UseCase.call uc input) w Q.
Proof.
  intros Hexec Hok H. unfold UseCase.call.
  apply wp_try_catch, wp_bind, wp_call. rewrite Hexec. simpl.
  unfold isFailure. unfold isSuccess in Hok. rewrite Hok. simpl.
  apply wp_bind.
  assert (wp (new_Context [] input (getValue res))
             (World h1 (w_calls w ++ [[input]]))
             (λ o w2, ∃ c, o = Normal c ∧ w_calls w2 = w_calls w ++ [[input]] ∧
                h1 ⊆ w_heap w2 ∧
                (valid h1 input → valid h1 (getValue res) →
                 Context_of h1 (w_heap w2) [] input (getValue res) c))) as Hctx.
  { destruct (decide (valid h1 input ∧ valid h1 (getValue res))) as [[Hi Hv]|Hn].
    - apply wp_new_Context; [done.. |]. intros c h2 Hsub2 Hc. by exists c.
    - apply wp_new_Context_any. intros c h2 Hsub2. exists c.
      do 3 (split; [done |]). intros Hi Hv. by destruct Hn. }
  eapply wp_conseq; [exact Hctx |]. clear Hctx.
  intros o [h2 cs2] (c & -> & Hcs & Hsub2 & Hc). simpl in Hcs, Hsub2, Hc. subst cs2.
  apply wp_bind, wp_new_object. simpl. intros lc Hlc.
  apply wp_Success. simpl.
  intros r' h' Hsub Hnew _ Ht Hok' Hu Hd He Hcx.
  assert (h2 ⊆ h') as Hsub'.
  { etrans; [| exact Hsub]. by apply insert_subseteq. }
  assert (h1 ⊆ <[lc := Object ClassObject
                          (data_property <$> ({[ name uc := c ]} : gmap string value))]> h2)
    as Hsub1 by (etrans; [exact Hsub2 | by apply insert_subseteq]).
  unfold or_sentinel in Hcx. simpl in Hcx.
  apply (H r' h' c lc).
  - by etrans.
  - by eapply lookup_weaken_None.
  - repeat split; [by eapply or_sentinel_nullish | by destruct He as (l & -> & _) |
                   by rewrite Hcx].
  - done.
  - done.
  - done.
  - eapply or_sentinel_weaken; [exact Hsub1 | reflexivity | exact Hd].
  - done.
  - by eapply lookup_weaken_None.
  - eapply lookup_weaken; [| exact Hsub]. by rewrite lookup_insert_eq.
  - intros Hi Hv. eapply Context_of_weaken; [exact Hsub' |]. by apply Hc.
Qed.



(** [call] when [String] throws in the [catch] block. *)
Lemma wp_UseCase_call_rejects uc input w e h1 (Q : outcome Result → world → Prop) :
  execute uc input (w_heap w) = (Thrown e, h1) →
  ¬ convertible h1 e →
  (∀ l o, h1 !! l = None → is_error_class (o_class o) = true →
          Q (Thrown (VObject l)) (World (<[l := o]> h1) (w_calls w ++ [[input]]))) →
  wp (UseCase.call uc input) w Q.
Proof.
  intros Hexec Hconv H. unfold UseCase.call.
  apply wp_try_catch, wp_bind, wp_call. rewrite Hexec. simpl.
  apply wp_bind, wp_normalize_error_throws; [done |]. simpl. intros l o Hl Ho. by apply H.
Qed.

(** [call] on every path on which it returns. *)
Lemma wp_UseCase_call_any uc input w (Q : outcome Result → world → Prop) :
  ¬ throws_unconvertible (execute uc input (w_heap w)) →
  (∀ r' h',
     (execute uc input (w_heap w)).2 ⊆ h' →
     (execute uc input (w_heap w)).2 !! rid r' = None →
     Result_wf r' → useCaseClass r' = name uc →
     Q (Normal r') (World h' (w_calls w ++ [[input]]))) →
  wp (UseCase.call uc input) w Q.
Proof.
  intros Hconv H. unfold throws_unconvertible in Hconv.
  destruct (execute uc input (w_heap w)) as [[res|e] h1] eqn:Hexec; simpl in H, Hconv.
  - destruct (isFailure res) eqn:Hfail.
    + eapply wp_UseCase_call_failure; [done.. |].
      intros r' h' Hsub Hnew Hwf _ _ Hu _ _. by apply H.
    + eapply wp_UseCase_call_success; [done | |].
      { unfold isFailure in Hfail. unfold isSuccess. by destruct (_isSuccess res). }
      intros r' h' c lc Hsub Hnew Hwf _ _ Hu _ _ _ _ _. by apply H.
  - eapply wp_UseCase_call_throws; [done | |].
    { by destruct (decide (convertible h1 e)). }
    intros r' h' Hsub Hnew Hwf _ _ Hu _ _. by apply H.
Qed.


(** X12: a use case that does not override [execute] does not make [call]
    throw: [call] returns a failure of type "UNEXPECTED_ERROR" whose error
    is the "Method not implemented" error itself, which is also the
    [rawError] of its context. *)
Theorem BaseUseCase_execute_not_implemented (n : string) (params : value) (w : world) :
  ∃ r' w', UseCase.call (mkUseCase n BaseUseCase_execute) params w = (Normal r', w') ∧
    isFailure r' = true ∧
    getType r' = "UNEXPECTED_ERROR" ∧
    useCaseClass r' = n ∧
    Error_with_message (w_heap w') (getError r')
      "Method not implemented. Override this method in a subclass." ∧
    ¬ valid (w_heap w) (getError r') ∧
    own_enumerable (w_heap w') (context r') = {[ "rawError" := getError r' ]}.
Proof.
  set (l := fresh (dom (w_heap w))).
  set (o := Object ClassError
              {[ "message" := Property
                   (VString "Method not implemented. Override this method in a subclass.")
                   true false true ]}).
  assert (w_heap w !! l = None) as Hl by apply not_elem_of_dom, is_fresh.
  apply wp_returns.
  eapply (wp_UseCase_call_throws _ _ _ (VObject l) (<[l := o]> (w_heap w))); [done | |].
  { left. simpl. by rewrite lookup_insert_eq. }
  intros r' h' Hsub _ _ Hfail Ht Hu Herr Hctx. exists r'. split; [done |].
  unfold normalized_error in Herr. simpl in Herr. rewrite lookup_insert_eq in Herr.
  simpl in Herr. rewrite Herr. simpl in Hu.
  assert (h' !! l = Some o) as Hl'.
  { eapply lookup_weaken; [| exact Hsub]. by rewrite lookup_insert_eq. }
  unfold Error_with_message, get_prop, getType. simpl. rewrite Hl, Hl'. simpl.
  repeat split; try done; by intros [? ?].
Qed.


(** X14: the variant that returns a wrapper.  [call] and [callChain] of
    an instance return the same wrapper without throwing; its promise
    settles as the orchestration does: rejected when [execute] throws a
    value that is not an [Error] and that [String] cannot convert,
    fulfilled with a Result labelled with the name of the use case in every
    other case.  The static [call] on a concrete class runs the
    constructor, whose exception it throws to the caller, and then is the
    [call] of the instance.  On the abstract class it returns a wrapper
    too: its promise is rejected with an [Error], no caller code is run,
    and awaiting any chain built on it throws that error without calling a
    callback. *)
Theorem BaseUseCase_call_wrapper (uc : UseCase) (constructor : ucode UseCase)
    (params : value) (w : world) (fns : list (value → Result → ucode Result)) :
  (∃ o w',
     UseCase.call uc params w = (o, w') ∧
     BaseUseCase.call uc params w = (Normal (mkResultPromise o), w') ∧
     BaseUseCase_callChain uc params w = (Normal (mkResultPromise o), w') ∧
     if decide (throws_unconvertible (execute uc params (w_heap w)))
     then ∃ e, o = Thrown e
     else ∃ r', o = Normal r' ∧ useCaseClass r' = name uc) ∧
  BaseUseCase_static_call (Some constructor) params w =
    match constructor (w_heap w) with
    | (Normal instance, h1) =>
        BaseUseCase.call instance params (World h1 (w_calls w ++ [[]]))
    | (Thrown e, h1) => (Thrown e, World h1 (w_calls w ++ [[]]))
    end ∧
  (∃ e w',
     BaseUseCase_static_call None params w = (Normal (mkResultPromise (Thrown e)), w') ∧
     Error_with_message (w_heap w') e "Cannot call static method on abstract UseCase class" ∧
     ¬ valid (w_heap w) e ∧
     w_calls w' = w_calls w ∧
     (rp ← ResultPromise_chain (mkResultPromise (Thrown e)) fns;
      ResultPromise.toResult rp) w' = (Thrown e, w')).
Proof.
  split_and!.
  - destruct (UseCase.call uc params w) as [o w'] eqn:Heq.
    exists o, w'. split; [done |].
    unfold BaseUseCase.call, BaseUseCase_callChain,
      BaseUseCase._executeWithErrorHandling, async, mbind, M_bind, mret, M_ret.
    rewrite Heq. split_and!; try done.
    destruct (decide _) as [Hthrow|Hn].
    + unfold throws_unconvertible in Hthrow.
      destruct (execute uc params (w_heap w)) as [[res|e] h1] eqn:Hexec; [done |].
      simpl in Hthrow.
      destruct (wp_throws (UseCase.call uc params) w (λ _ _, True)) as (e' & w'' & Heq' & _).
      { eapply wp_UseCase_call_rejects; [done.. |]. intros l o' _ _. by eexists. }
      rewrite Heq in Heq'. exists e'. congruence.
    + destruct (wp_returns (UseCase.call uc params) w (λ r' _, useCaseClass r' = name uc))
        as (r' & w'' & Heq' & Hu).
      { apply wp_UseCase_call_any; [done |]. intros r' h' _ _ _ Hu. by exists r'. }
      rewrite Heq in Heq'. exists r'. split; [congruence | done].
  - unfold BaseUseCase_static_call, call, mbind, M_bind.
    by destruct (constructor (w_heap w)) as [[instance|e] h1].
  - assert (w_heap w !! fresh (dom (w_heap w)) = None) as Hl
      by apply not_elem_of_dom, is_fresh.
    eexists _, _. split; [reflexivity |]. simpl.
    unfold Error_with_message, get_prop. simpl. rewrite lookup_insert_eq, Hl. simpl.
    repeat split; try done; try (by intros [? ?]).
    unfold mbind, M_bind. by rewrite ResultPromise_chain_rejected.
Qed.

(** ** Contexts along a chain of use cases *)

Lemma user_eq {A} (m : M A) h o w' :
  m (World h []) = (o, w') → user m h = (o, w_heap w').
Proof. unfold user. by intros ->. Qed.

(** X15: chaining a use case onto a success adds its Context to the
    contexts collected so far.  When the callback of [and_then] calls a
    use case on the value and [execute] succeeds, the context of the
    Result holds the properties of the original context and, under the
    name of the use case, the Context of this call; an entry of that name
    is replaced. *)
Theorem use_case_chain_context (s : Result) (uc : UseCase) (w : world)
    (res : Result) (h1 : gmap loc object)
    (Hs : isSuccess s = true)
    (Hexec : execute uc (getValue s) (w_heap w) = (Normal res, h1))
    (Hok : isSuccess res = true)
    (Hwf : Result_wf res)
    (Hctx : valid h1 (context s))
    (Hin : valid h1 (getValue s))
    (Hout : valid h1 (getValue res)) :
  ∃ r' w' c, and_then s (λ v _, user (UseCase.call uc v)) w = (Normal r', w') ∧
    isSuccess r' = true ∧
    getValue r' = getValue res ∧
    useCaseClass r' = name uc ∧
    own_enumerable (w_heap w') (context r')
      = <[name uc := c]> (own_enumerable h1 (context s)) ∧
    Context_of h1 (w_heap w') [] (getValue s) (getValue res) c.
Proof.
  destruct Hwf as (Hd & _ & _).
  destruct (wp_returns (UseCase.call uc (getValue s)) (World (w_heap w) []) (λ next wn,
      ∃ c lc, h1 ⊆ w_heap wn ∧ _isSuccess next = true ∧ data next = data res ∧
        useCaseClass next = name uc ∧ Result_wf next ∧ context next = VObject lc ∧
        w_heap wn !! lc = Some (Object ClassObject
          (data_property <$> ({[ name uc := c ]} : gmap string value))) ∧
        Context_of h1 (w_heap wn) [] (getValue s) (getValue res) c))
    as (next & wn & Heq & c & lc & Hsub & Hnok & Hnd & Hnu & Hnwf & Hnc & Hlc & Hc).
  { eapply wp_UseCase_call_success; [done.. |].
    intros next hn c lc Hsub _ Hnwf Hnok _ Hnu Hnd Hnc _ Hlc Hc.
    unfold or_sentinel in Hnd. rewrite Hd in Hnd. exists next.
    split; [done |]. exists c, lc. simpl. split_and!; try done. by apply Hc. }
  apply user_eq in Heq.
  cut (∃ r' w', and_then s (λ v _, user (UseCase.call uc v)) w = (Normal r', w') ∧
         isSuccess r' = true ∧ getValue r' = getValue res ∧ useCaseClass r' = name uc ∧
         own_enumerable (w_heap w') (context r')
           = <[name uc := c]> (own_enumerable h1 (context s)) ∧
         Context_of h1 (w_heap w') [] (getValue s) (getValue res) c).
  { intros (r' & w' & H). by exists r', w', c. }
  apply wp_returns. unfold and_then, isFailure. unfold isSuccess in Hs. rewrite Hs. simpl.
  apply wp_try_catch, wp_bind, wp_call. rewrite Heq. simpl.
  unfold mergeContext. apply wp_bind, wp_spread2. simpl. intros lm Hlm.
  rewrite Hnc, (own_enumerable_literal _ _ _ Hlc), (own_enumerable_weaken h1 (w_heap wn))
    by done.
  apply wp_new_Result. simpl.
  intros r' h' Hsub' _ _ _ Hok' Hu' Hd' _ Hc'. exists r'. split; [done |].
  destruct Hnwf as (Hnd' & _ & _).
  unfold or_sentinel in Hd', Hc'. rewrite Hnd' in Hd'. simpl in Hc', Hu'.
  unfold isSuccess, getValue. rewrite Hok', Hd', Hu', Hc'.
  split_and!; try done.
  - rewrite insert_union_singleton_l. apply own_enumerable_literal.
    eapply lookup_weaken; [| exact Hsub']. by rewrite lookup_insert_eq.
  - apply (Context_of_weaken _ (w_heap wn)); [| done].
    etrans; [| exact Hsub']. by apply insert_subseteq.
Qed.

(** [SuccessUseCase] chained onto [Success("a", { x: 1 })]: the context
    holds [x] and the Context of the call. *)
Lemma use_case_chain_context_witness :
  ∃ r' w' c, and_then ex_success (λ v _, user (UseCase.call SuccessUseCase v)) ex_world
               = (Normal r', w') ∧
    getValue r' = VNumber 1 ∧
    useCaseClass r' = "SuccessUseCase" ∧
    own_enumerable (w_heap w') (context r')
      = {[ "x" := VNumber 1; "SuccessUseCase" := c ]} ∧
    getInput (w_heap w') c = VString "a" ∧
    getOutput (w_heap w') c = VNumber 1.
Proof.
  destruct (use_case_chain_context ex_success SuccessUseCase ex_world
              (mkResult 6%positive "SUCCESS" (VNumber 1) (VObject 7%positive)
                 (VObject 8%positive) "" true)
              (execute SuccessUseCase (VString "a") ex_heap).2)
    as (r' & w' & c & Heq & _ & Hv & Hu & Hctx & Hc).
  - reflexivity.
  - vm_compute. reflexivity.
  - reflexivity.
  - repeat split.
  - vm_compute. eexists. reflexivity.
  - exact I.
  - exact I.
  - exists r', w', c. split; [exact Heq |]. split; [exact Hv |]. split; [exact Hu |].
    split.
    + rewrite Hctx. vm_compute. reflexivity.
    + split; [exact (Context_of_getInput _ _ _ _ _ _ Hc eq_refl) |].
      exact (Context_of_getOutput _ _ _ _ _ _ Hc eq_refl).
Defined.

(** ** The copying loop of [Context] *)

Lemma copy_loop_eq this cls hb cs (l : list (string * value)) P :
  forEach l (λ '(key, value),
      present ← in_this this key;
      if negb present
      then define_prop this key (Property value false true true)
      else mret ())
    (World (<[this := Object cls P]> hb) cs)
  = (Normal (), World (<[this := Object cls (foldl (copy_step cls) P l)]> hb) cs).
Proof. by apply wp_eq, wp_copy_loop. Qed.

(** X16: the order in which [Object.entries] lists the properties does
    not matter.  For entries with different keys, the loop of the
    constructor ends in the same world for every order of the entries. *)
Theorem Context_copy_order_irrelevant (this : loc) (o : object)
    (l l' : list (string * value)) (w : world)
    (Hthis : w_heap w !! this = Some o)
    (Hperm : l ≡ₚ l')
    (Hkeys : NoDup l.*1) :
  forEach l (λ '(key, value),
      present ← in_this this key;
      if negb present
      then define_prop this key (Property value false true true)
      else mret ()) w
  = forEach l' (λ '(key, value),
      present ← in_this this key;
      if negb present
      then define_prop this key (Property value false true true)
      else mret ()) w.
Proof.
  destruct w as [h cs], o as [cls P]. simpl in Hthis.
  rewrite <- (insert_delete_id h this (Object cls P)) by done.
  rewrite !copy_loop_eq.
  assert (foldl (copy_step cls) P l = foldl (copy_step cls) P l') as ->; [| done].
  apply map_eq. intros key. rewrite !copy_fold_lookup.
  by rewrite (list_to_map_proper l l' Hkeys Hperm).
Qed.

Lemma Context_copy_order_irrelevant_witness :
  forEach [("b", VNumber 1); ("toString", VNumber 2); ("a", VNumber 3)] (λ '(key, value),
      present ← in_this 6%positive key;
      if negb present
      then define_prop 6%positive key (Property value false true true)
      else mret ())
    (World (<[6%positive := Object (ClassContext []) ∅]> ex_heap) [])
  = forEach [("a", VNumber 3); ("toString", VNumber 2); ("b", VNumber 1)] (λ '(key, value),
      present ← in_this 6%positive key;
      if negb present
      then define_prop 6%positive key (Property value false true true)
      else mret ())
    (World (<[6%positive := Object (ClassContext []) ∅]> ex_heap) []).
Proof.
  apply (Context_copy_order_irrelevant 6%positive (Object (ClassContext []) ∅)
           [("b", VNumber 1); ("toString", VNumber 2); ("a", VNumber 3)]
           [("a", VNumber 3); ("toString", VNumber 2); ("b", VNumber 1)]).
  - reflexivity.
  - apply (Permutation_rev [("b", VNumber 1); ("toString", VNumber 2); ("a", VNumber 3)]).
  - apply (bool_decide_unpack _). vm_compute. exact I.
Defined.

(** ** Hooks in sequence and the unit callback *)

(** X17: in [r.onSuccess(f).onFailure(g, matchType)] at most one of the
    two callbacks is called: [f] on a success, [g] on a failure of the
    match type, none otherwise; the expression has the value [r] unless
    the callback that was called threw. *)
Theorem hooks_exclusive (r : Result) (f g : value → Result → ucode unit)
    (matchType : option string) (w : world) :
  (r1 ← onSuccess r f; onFailure r1 g matchType) w =
    if isSuccess r then
      (hook_outcome r (f (getValue r) r (w_heap w)).1,
       World (f (getValue r) r (w_heap w)).2
             (w_calls w ++ [[getValue r; VObject (rid r)]]))
    else if decide (getType r = default "FAILURE" matchType) then
      (hook_outcome r (g (getError r) r (w_heap w)).1,
       World (g (getError r) r (w_heap w)).2
             (w_calls w ++ [[getError r; VObject (rid r)]]))
    else (Normal r, w).
Proof.
  unfold onSuccess, onFailure, isSuccess, isFailure, getType, call, mbind, M_bind,
    mret, M_ret.
  destruct (_isSuccess r) eqn:Hok; simpl.
  - destruct (f (getValue r) r (w_heap w)) as [[[]|e] h']; simpl; [| done].
    by rewrite Hok.
  - rewrite Hok. simpl.
    destruct (String.eqb_spec (resultType r) (default "FAILURE" matchType)) as [Heq|Hne].
    + rewrite decide_True by done.
      by destruct (g (getError r) r (w_heap w)) as [[[]|e] h'].
    + by rewrite decide_False.
Qed.

(** X18: chaining the callback [v => Success(v)] onto a success keeps the
    value and the properties of the context, in a new context object, but
    not the label: the label of the Result is that of the callback's
    Result, the empty string. *)
Theorem and_then_unit_callback (s : Result) (w : world)
    (Hs : isSuccess s = true)
    (Hwf : Result_wf s)
    (Hctx : valid (w_heap w) (context s)) :
  ∃ r' w', and_then s (λ v _, user (Success v VUndefined None)) w = (Normal r', w') ∧
    isSuccess r' = true ∧
    getType r' = "SUCCESS" ∧
    getValue r' = getValue s ∧
    own_enumerable (w_heap w') (context r') = own_enumerable (w_heap w) (context s) ∧
    context r' ≠ context s ∧
    useCaseClass r' = "".
Proof.
  destruct Hwf as (Hd & _ & _).
  destruct (wp_returns (Success (getValue s) VUndefined None) (World (w_heap w) [])
      (λ next wn, w_heap w ⊆ w_heap wn ∧ _isSuccess next = true ∧
         resultType next = "SUCCESS" ∧ data next = data s ∧ useCaseClass next = "" ∧
         Result_wf next ∧ sentinel (w_heap w) (w_heap wn) (context next)))
    as (next & wn & Heq & Hsub & Hnok & Hnt & Hnd & Hnu & Hnwf & Hnc).
  { apply wp_Success. simpl. intros next hn Hsub _ _ Ht Hok Hu Hdn He Hc. exists next.
    unfold or_sentinel in Hdn. unfold getValue in Hdn. rewrite Hd in Hdn.
    split_and!; try done.
    unfold Result_wf. rewrite Hdn.
    split_and!; [done | by destruct He as (l & -> & _) | by eapply or_sentinel_nullish]. }
  apply user_eq in Heq.
  apply wp_returns. unfold and_then, isFailure. unfold isSuccess in Hs. rewrite Hs. simpl.
  apply wp_try_catch, wp_bind, wp_call. rewrite Heq. simpl.
  unfold mergeContext. apply wp_bind, wp_spread2. simpl. intros lm Hlm.
  rewrite (own_enumerable_sentinel _ _ _ Hnc), (own_enumerable_weaken (w_heap w) (w_heap wn))
    by done.
  rewrite (left_id_L ∅ (∪)).
  apply wp_new_Result. simpl.
  intros r' h' Hsub' _ _ Ht' Hok' Hu' Hd' _ Hc'. exists r'. split; [done |].
  destruct Hnwf as (Hnd' & _ & _).
  unfold or_sentinel in Hd', Hc'. rewrite Hnd' in Hd'. simpl in Hc', Hu'.
  unfold isSuccess, getValue, getType. rewrite Hok', Hd', Hu', Hc', Ht'.
  split_and!; try done.
  - apply own_enumerable_literal.
    eapply lookup_weaken; [| exact Hsub']. by rewrite lookup_insert_eq.
  - intros Heq'. rewrite <- Heq' in Hctx. simpl in Hctx.
    rewrite (lookup_weaken_None _ _ _ Hlm Hsub) in Hctx. by destruct Hctx.
Qed.

Lemma and_then_unit_callback_witness :
  ∃ r' w', and_then ex_success (λ v _, user (Success v VUndefined None)) ex_world
             = (Normal r', w') ∧
    isSuccess r' = true ∧
    getType r' = "SUCCESS" ∧
    getValue r' = VString "a" ∧
    own_enumerable (w_heap w') (context r') = {[ "x" := VNumber 1 ]} ∧
    context r' ≠ VObject 3%positive ∧
    useCaseClass r' = "".
Proof.
  apply (and_then_unit_callback ex_success ex_world).
  - reflexivity.
  - repeat split.
  - vm_compute. eexists. reflexivity.
Defined.
